(** * BrumSchtick: map tokenizer, hotspot parser, Bezier patches and brush CSG

    A shallow embedding of the parts of the editor core that the
    specification makes claims about:

    - [PatchCount]: [sanitizePatchCount] of io/StandardMapParser.cpp;
    - [Tok]: [QuakeMapTokenizer::emitToken] of io/StandardMapParser.cpp;
    - [Hotspot]: io/HotspotRectParser.cpp;
    - [Patch]: mdl/BezierPatch.cpp;
    - [Csg] and [Chamfer]: [csgIntersect], [chamferBrushEdge] and
      [chamferEdges] of mdl/Map_Geometry.cpp.

    Unsigned machine integers are integers with their wrap-around written
    out.  C++ exceptions and contract violations are explicit results. *)

From Stdlib Require Import ZArith QArith Qround String Ascii List Lia DecimalString.
From stdpp Require Import gmap strings list.

Local Open Scope Z_scope.

(** ** Results and exceptions *)

(** [Result<T>]: a value or an error message. *)
Inductive Result (A : Type) : Type :=
| Success (a : A)
| Error (msg : string).
Arguments Success {A} a.
Arguments Error {A} msg.

(** [size_t] on the 64-bit targets of the editor. *)
Definition size_bits : Z := 64.
Definition size_wrap (x : Z) : Z := x mod 2 ^ size_bits.

(** ** Patch dimension sanitization (io/StandardMapParser.cpp) *)

Module PatchCount.

  (** [FileLocation]: line and column of a token. *)
Record FileLocation := { loc_line : Z; loc_column : Z }.

  (** What [ParserStatus::warn] receives; the status is the list of the
      warnings issued so far, oldest first. *)
Record Warning := { warn_location : FileLocation; warn_message : string }.
Definition ParserStatus := list Warning.

Definition warn (location : FileLocation) (msg : string)
      (status : ParserStatus) : ParserStatus :=
    status ++ [{| warn_location := location; warn_message := msg |}].

  (** [std::format("{}", n)] for an unsigned integer. *)
Definition format_size (n : Z) : string :=
    NilZero.string_of_uint (N.to_uint (Z.to_N n)).

  (** size_t sanitizePatchCount(count, label, location, status) *)
Definition sanitizePatchCount (count : Z) (label : string)
      (location : FileLocation) (status : ParserStatus) : Z * ParserStatus :=
    if count <? 3 then
      (3, warn location ("Invalid patch " ++ label ++ ", expanding to 3") status)
    else if count mod 2 =? 0 then
      let expanded := size_wrap (count + 1) in
      (expanded,
       warn location
         ("Invalid patch " ++ label ++ ", expanding to " ++ format_size expanded)
         status)
    else (count, status).

  (** The status after the call holds exactly one more warning. *)
Definition warned_once (before after : ParserStatus) : Prop :=
    exists w, after = before ++ [w].

End PatchCount.

(** ** The map tokenizer (io/StandardMapParser.cpp) *)

Module QuakeMapToken.
  (** The token types of [QuakeMapToken]. *)
Inductive Type_ : Set :=
  | Integer | Decimal | String | OParenthesis | CParenthesis
  | OBrace | CBrace | OBracket | CBracket | Comment | Eol | Eof.
End QuakeMapToken.

Module Tok.

Local Open Scope char_scope.

Definition TAB : ascii := "009".
Definition LF : ascii := "010".
Definition CR : ascii := "013".
Definition NUL : ascii := "000".
Definition DQUOTE : ascii := "034".

  (** The tokenizer state: [cur] is the text from [curPos()] to the end of
      the buffer, [offset] is [curPos() - begin]. *)
Record State := mkState {
    cur : string;
    offset : nat;
    line : nat;
    column : nat;
    escaped : bool
  }.

Record Token := mkToken {
    type : QuakeMapToken.Type_;
    data : string;          (* the characters in [begin, end) *)
    position : nat;
    tline : nat;
    tcolumn : nat
  }.

Record ParserException := mkException {
    exc_line : nat; exc_column : nat; exc_message : string
  }.

Inductive Exc (A : Type) : Type :=
  | Ok (a : A)
  | Throw (e : ParserException).
Arguments Ok {A} a.
Arguments Throw {A} e.

Definition bind {A B} (m : Exc A) (f : A -> Exc B) : Exc B :=
    match m with Ok a => f a | Throw e => Throw e end.
Notation "'letE' x := m 'in' k" := (bind m (fun x => k))
    (at level 10, x name, m at level 200, k at level 200).

Definition initial (text : string) : State :=
    {| cur := text; offset := 0; line := 1; column := 1; escaped := false |}.

  (** Modelled from the spec: the [Tokenizer] base class (io/Tokenizer.h) is
      not among the sources.  It tracks line, column and byte offset and
      offers the character primitives below; reading past the end of the
      buffer yields the NUL character, advancing past it is an error. *)
Definition eof (s : State) : bool :=
    match cur s with EmptyString => true | _ => false end.

Definition curChar (s : State) : ascii :=
    match cur s with String.String c _ => c | EmptyString => NUL end.

Definition lookAhead (n : nat) (s : State) : ascii :=
    match String.get n (cur s) with Some c => c | None => NUL end.

Definition escapeChar : ascii := "\".

  (** Modelled from the spec: the position bookkeeping of
      [Tokenizer::advance]: a line feed, or a carriage return that is not
      followed by a line feed, starts a new line; everything else moves one
      column on and updates the escape flag. *)
Definition advance_from (c next : ascii) (rest : string) (s : State) : State :=
    if ((c =? CR) && negb (next =? LF)) || (c =? LF) then
      {| cur := rest; offset := S (offset s);
         line := S (line s); column := 1; escaped := false |}
    else if c =? CR then
      {| cur := rest; offset := S (offset s);
         line := line s; column := S (column s); escaped := escaped s |}
    else
      {| cur := rest; offset := S (offset s);
         line := line s; column := S (column s);
         escaped := if c =? escapeChar then negb (escaped s) else false |}.

Definition advance (s : State) : Exc State :=
    match cur s with
    | EmptyString =>
        Throw (mkException (line s) (column s) "Unexpected end of file")
    | String.String c rest => Ok (advance_from c (lookAhead 1 s) rest s)
    end.

Fixpoint isAnyOf (c : ascii) (delims : string) : bool :=
    match delims with
    | EmptyString => false
    | String.String d ds => (c =? d) || isAnyOf c ds
    end.

Definition isDigit (c : ascii) : bool :=
    (48 <=? nat_of_ascii c)%nat && (nat_of_ascii c <=? 57)%nat.

  (** Modelled from the spec: [Tokenizer::Whitespace()], blank, tab, line
      feed and carriage return. *)
Definition Whitespace : string :=
    String.String " " (String.String TAB (String.String LF (String.String CR EmptyString))).

  (** const std::string& QuakeMapTokenizer::NumberDelim() *)
Definition NumberDelim : string := (Whitespace ++ ")")%string.

  (** Modelled from the spec: [discardUntil], [discardWhile], [readUntil],
      [readDigits]: advance while the current character is outside (inside)
      the given set; they stop at the end of the buffer. *)
Fixpoint scan (stop : ascii -> bool) (text : string) (s : State) : State :=
    match text with
    | EmptyString => s
    | String.String c rest =>
        if stop c then s
        else scan stop rest
               (advance_from c (match rest with String.String n _ => n | _ => NUL end) rest s)
    end.

Definition discardUntil (delims : string) (s : State) : State :=
    scan (fun c => isAnyOf c delims) (cur s) s.

Definition discardWhile (allow : string) (s : State) : State :=
    scan (fun c => negb (isAnyOf c allow)) (cur s) s.

Definition readDigits (s : State) : State :=
    scan (fun c => negb (isDigit c)) (cur s) s.

  (** [readUntil] is a do-while loop: it consumes one character before it
      looks at the delimiters, and returns the (never null) end position. *)
Definition readUntil (delims : string) (s : State) : option State :=
    match advance s with
    | Ok s1 => Some (discardUntil delims s1)
    | Throw _ => Some s
    end.

Definition atDelim (delims : string) (s : State) : bool :=
    eof s || isAnyOf (curChar s) delims.

  (** Modelled from the spec: [readInteger(delims)]: an optional sign and
      digits, accepted only when followed by a delimiter or the end of the
      buffer; otherwise the state is restored and the result is null. *)
Definition readInteger (delims : string) (s : State) : option State :=
    let c := curChar s in
    if negb ((c =? "+") || (c =? "-") || isDigit c) then None
    else
      match (if (c =? "+") || (c =? "-") then advance s else Ok s) with
      | Throw _ => None
      | Ok s1 =>
          let s2 := readDigits s1 in
          if atDelim delims s2 then Some s2 else None
      end.

  (** Modelled from the spec: [readDecimal(delims)]: sign or digits, an
      optional fraction, an optional exponent, then a delimiter or the end
      of the buffer; otherwise the state is restored and the result is
      null. *)
Definition readDecimal (delims : string) (s : State) : option State :=
    let c := curChar s in
    if negb ((c =? "+") || (c =? "-") || (c =? ".") || isDigit c) then None
    else
      match (if negb (c =? ".") then letE s1 := advance s in Ok (readDigits s1) else Ok s) with
      | Throw _ => None
      | Ok s1 =>
          match (if curChar s1 =? "." then letE s2 := advance s1 in Ok (readDigits s2)
                 else Ok s1) with
          | Throw _ => None
          | Ok s2 =>
              match (if curChar s2 =? "e" then
                       letE s3 := advance s2 in
                       let d := curChar s3 in
                       if (d =? "+") || (d =? "-") || isDigit d then
                         letE s4 := advance s3 in Ok (readDigits s4)
                       else Ok s3
                     else Ok s2) with
              | Throw _ => None
              | Ok s3 => if atDelim delims s3 then Some s3 else None
              end
          end
      end.

  (** Modelled from the spec: [readQuotedString(delim, hackDelims)]: the
      string ends at the first unescaped closing quote, at the end of the
      buffer, or at an escaped quote that is directly followed by one of the
      hack delimiters.  The result is the end of the string and the state
      after the closing quote. *)
Fixpoint quoted_end (delim : ascii) (hackDelims : string) (text : string)
      (s : State) : State :=
    match text with
    | EmptyString => s
    | String.String c rest =>
        let next := match rest with String.String n _ => n | _ => NUL end in
        if (c =? delim) && negb (escaped s) then s
        else if (c =? DQUOTE) && escaped s && isAnyOf next hackDelims then
          {| cur := cur s; offset := offset s; line := line s;
             column := column s; escaped := false |}
        else quoted_end delim hackDelims rest (advance_from c next rest s)
    end.

Definition readQuotedString (delim : ascii) (hackDelims : string) (s : State)
      : State * State :=
    let e := quoted_end delim hackDelims (cur s) s in
    (e, match advance e with Ok s' => s' | Throw _ => e end).

  (** The characters between two positions of the buffer. *)
Definition span (b e : State) : string :=
    substring 0 (offset e - offset b) (cur b).

Definition token (t : QuakeMapToken.Type_) (c : State) (len : nat) : Token :=
    {| type := t; data := substring 0 len (cur c);
       position := offset c; tline := line c; tcolumn := column c |}.

Definition tokenTo (t : QuakeMapToken.Type_) (c e start : State) : Token :=
    {| type := t; data := span c e;
       position := offset c; tline := line start; tcolumn := column start |}.

Definition LF_CR : string := String.String LF (String.String CR EmptyString).
Definition LF_CBrace : string := String.String LF (String.String "}" EmptyString).

  (** One round of the [while (!eof())] loop of
      [QuakeMapTokenizer::emitToken]: either a token is returned, or an
      exception is thrown, or the loop goes on from a later state. *)
Inductive Round : Type :=
  | Return (t : Token) (s : State)
  | Raise (e : ParserException)
  | Continue (s : State).

Definition whitespaceCase (s : State) : Round :=
    Continue (discardWhile Whitespace s).

Definition lineFeedCase (skipEol : bool) (c s : State) : Round :=
    if negb skipEol then
      match advance s with
      | Ok s1 => Return (token QuakeMapToken.Eol c 1) s1
      | Throw e => Raise e
      end
    else whitespaceCase s.

Definition emitToken_round (skipEol : bool) (s : State) : Round :=
    let c := s in
    let ch := curChar s in
    if ch =? "/" then
      match advance s with
      | Throw e => Raise e
      | Ok s1 =>
          if curChar s1 =? "/" then
            match advance s1 with
            | Throw e => Raise e
            | Ok s2 =>
                if (curChar s2 =? "/") && (lookAhead 1 s2 =? " ") then
                  match advance s2 with
                  | Throw e => Raise e
                  | Ok s3 => Return (token QuakeMapToken.Comment c 3) s3
                  end
                else Continue (discardUntil LF_CR s2)
            end
          else Continue s1
      end
    else if ch =? ";" then
      match advance s with
      | Throw e => Raise e
      | Ok s1 => Continue (discardUntil LF_CR s1)
      end
    else if ch =? "{" then
      match advance s with
      | Throw e => Raise e | Ok s1 => Return (token QuakeMapToken.OBrace c 1) s1 end
    else if ch =? "}" then
      match advance s with
      | Throw e => Raise e | Ok s1 => Return (token QuakeMapToken.CBrace c 1) s1 end
    else if ch =? "(" then
      match advance s with
      | Throw e => Raise e | Ok s1 => Return (token QuakeMapToken.OParenthesis c 1) s1 end
    else if ch =? ")" then
      match advance s with
      | Throw e => Raise e | Ok s1 => Return (token QuakeMapToken.CParenthesis c 1) s1 end
    else if ch =? "[" then
      match advance s with
      | Throw e => Raise e | Ok s1 => Return (token QuakeMapToken.OBracket c 1) s1 end
    else if ch =? "]" then
      match advance s with
      | Throw e => Raise e | Ok s1 => Return (token QuakeMapToken.CBracket c 1) s1 end
    else if ch =? DQUOTE then
      match advance s with
      | Throw e => Raise e
      | Ok s1 =>
          let '(e, s2) := readQuotedString DQUOTE LF_CBrace s1 in
          Return (tokenTo QuakeMapToken.String s1 e s) s2
      end
    else if ch =? CR then
      if lookAhead 1 s =? LF then
        match advance s with
        | Throw e => Raise e
        | Ok s1 => lineFeedCase skipEol c s1
        end
      else lineFeedCase skipEol c s
    else if ch =? LF then lineFeedCase skipEol c s
    else if (ch =? " ") || (ch =? TAB) then whitespaceCase s
    else
      match readInteger NumberDelim s with
      | Some e => Return (tokenTo QuakeMapToken.Integer c e s) e
      | None =>
          match readDecimal NumberDelim s with
          | Some e => Return (tokenTo QuakeMapToken.Decimal c e s) e
          | None =>
              match readUntil Whitespace s with
              | Some e => Return (tokenTo QuakeMapToken.String c e s) e
              | None =>
                  Raise (mkException (line s) (column s)
                           ("Unexpected character: " ++ String.String ch EmptyString))
              end
          end
      end.

Definition eofToken (s : State) : Token :=
    {| type := QuakeMapToken.Eof; data := EmptyString;
       position := offset s + String.length (cur s);
       tline := line s; tcolumn := column s |}.

  (** The loop, with the number of rounds it may still take; [None] means
      that the rounds ran out. *)
Fixpoint emitToken_loop (rounds : nat) (skipEol : bool) (s : State)
      : option (Exc (Token * State)) :=
    match rounds with
    | O => None
    | S n =>
        if eof s then Some (Ok (eofToken s, s))
        else
          match emitToken_round skipEol s with
          | Return t s' => Some (Ok (t, s'))
          | Raise e => Some (Throw e)
          | Continue s' => emitToken_loop n skipEol s'
          end
    end.

  (** QuakeMapTokenizer::Token QuakeMapTokenizer::emitToken().  Every round
      that goes on has consumed a character, so one round more than the
      length of the remaining text is always enough
      (see [emitToken_loop_enough]). *)
Definition emitToken (skipEol : bool) (s : State) : Exc (Token * State) :=
    match emitToken_loop (S (String.length (cur s))) skipEol s with
    | Some r => r
    | None => Throw (mkException (line s) (column s) "emitToken: no progress")
    end.

  (** All tokens up to and including the end-of-file token, as repeated
      [nextToken()] calls deliver them. *)
Fixpoint tokens_from (n : nat) (skipEol : bool) (s : State) : Exc (list Token) :=
    match n with
    | O => Ok []
    | S n' =>
        match emitToken skipEol s with
        | Throw e => Throw e
        | Ok (t, s') =>
            match type t with
            | QuakeMapToken.Eof => Ok [t]
            | _ => letE ts := tokens_from n' skipEol s' in Ok (t :: ts)
            end
        end
    end.

Definition allTokens (skipEol : bool) (text : string) : Exc (list Token) :=
    tokens_from (S (String.length text)) skipEol (initial text).

Definition kinds (ts : list Token) : list (QuakeMapToken.Type_ * string) :=
    map (fun t => (type t, data t)) ts.

End Tok.

(** Auxiliary notions for statements about the tokenizer. *)
Module TokAux.
Import Tok.
Local Open Scope string_scope.

  (** What is left of a line from its first line feed or carriage return
      on. *)
Fixpoint skipLine (r : string) : string :=
    match r with
    | EmptyString => EmptyString
    | String.String c r' => if isAnyOf c LF_CR then r else skipLine r'
    end.

  (** The state after the two slashes of a comment. *)
Definition afterSlashes (s : State) (r : string) : State :=
    {| cur := r; offset := S (S (offset s)); line := line s;
       column := S (S (column s)); escaped := false |}.

  (** Types and texts of all tokens of a buffer, or nothing when the
      tokenizer throws. *)
Definition lex (skipEol : bool) (text : string)
      : option (list (QuakeMapToken.Type_ * string)) :=
    match allTokens skipEol text with
    | Ok ts => Some (kinds ts)
    | Throw _ => None
    end.
(** The state after one ordinary character (neither a line end nor the
    escape character). *)
Definition afterChar (s : State) (r : string) : State :=
  {| cur := r; offset := S (offset s); line := line s;
     column := S (column s); escaped := false |}.

(** The Eol token issued at a state; its text is the first character of
    the line end. *)
Definition eolToken (s : State) (c : ascii) : Token :=
  {| type := QuakeMapToken.Eol; data := String.String c EmptyString;
     position := offset s; tline := line s; tcolumn := column s |}.

Definition isEof (t : Token) : bool :=
  match type t with QuakeMapToken.Eof => true | _ => false end.

End TokAux.

(** ** The hotspot rect parser (io/HotspotRectParser.cpp) *)

Module Hotspot.

Import Tok (TAB, LF, CR, DQUOTE, isAnyOf, isDigit).

  (** *** Single-precision numbers and [std::stof] *)

  (** A finite [float] is the rational it denotes, in lowest terms. *)
Definition float : Type := Q.

Inductive StdException : Set := invalid_argument | out_of_range.

  (** What a call does: it returns, or a C++ exception leaves it. *)
Inductive Exc (A : Type) : Type :=
  | Returned (a : A)
  | Thrown (e : StdException).
Arguments Returned {A} a.
Arguments Thrown {A} e.

  (** floor(log2 (n/d)) for positive n and d. *)
Definition log2_ratio (n d : Z) : Z :=
    let e := Z.log2 n - Z.log2 d in
    if (if 0 <=? e then d * 2 ^ e <=? n else d <=? n * 2 ^ (- e)) then e else e - 1.

  (** n/d rounded to the nearest integer, ties to even. *)
Definition round_half_even (n d : Z) : Z * bool :=
    let q := n / d in
    let r := n mod d in
    if r =? 0 then (q, true)
    else if 2 * r <? d then (q, false)
    else if d <? 2 * r then (q + 1, false)
    else (if Z.even q then q else q + 1, false).

  (** The binary32 number nearest to a rational (24 bits of precision,
      exponents from -149, ties to even).  The conversion fails with a
      range error when the result would be infinite, or when it is
      subnormal and inexact, the two cases in which [strtof] sets
      [errno] to [ERANGE] and [std::stof] throws [std::out_of_range]. *)
Definition binary32_round (q : Q) : option float :=
    let n := Z.abs (Qnum q) in
    let d := Zpos (Qden q) in
    if n =? 0 then Some (0 # 1)%Q
    else
      let e := log2_ratio n d in
      let t := Z.max (e - 23) (-149) in
      let '(m, exact) :=
        if 0 <=? t then round_half_even n (d * 2 ^ t)
        else round_half_even (n * 2 ^ (- t)) d in
      let subnormal := m <? 2 ^ 23 in
      if (0 <=? t) && ((2 ^ 24 - 1) * 2 ^ 104 <? m * 2 ^ t) then None
      else if subnormal && negb exact then None
      else
        let mag := if 0 <=? t then inject_Z (m * 2 ^ t)
                   else Qmake m (Z.to_pos (2 ^ (- t))) in
        Some (Qred (if Qnum q <? 0 then Qopp mag else mag)).

Definition digit_value (c : ascii) : Z := Z.of_nat (nat_of_ascii c) - 48.

Local Open Scope char_scope.

  (** The value of a digit string read after [acc]. *)
Fixpoint digits_value (acc : Z) (s : string) : Z :=
    match s with
    | EmptyString => acc
    | String.String c r => digits_value (10 * acc + digit_value c) r
    end.

Fixpoint str_take_while (p : ascii -> bool) (s : string) : string :=
    match s with
    | EmptyString => EmptyString
    | String.String c r => if p c then String.String c (str_take_while p r) else EmptyString
    end.

Fixpoint str_drop_while (p : ascii -> bool) (s : string) : string :=
    match s with
    | EmptyString => EmptyString
    | String.String c r => if p c then str_drop_while p r else s
    end.

  (** [std::isspace] in the "C" locale. *)
Definition isspace (c : ascii) : bool :=
    let n := nat_of_ascii c in ((9 <=? n)%nat && (n <=? 13)%nat) || (n =? 32)%nat.

  (** [std::stof] on decimal numerals without exponent, the only strings
      [parseNumbers] hands to it: leading white space, an optional sign,
      digits with an optional fraction.  Without any digit the conversion
      throws [std::invalid_argument]; a value outside the range of [float]
      throws [std::out_of_range]. *)
Definition stof (str : string) : Exc float :=
    let s0 := str_drop_while isspace str in
    let '(neg, s1) :=
      match s0 with
      | String.String "-" r => (true, r)
      | String.String "+" r => (false, r)
      | _ => (false, s0)
      end in
    let ip := str_take_while isDigit s1 in
    let s2 := str_drop_while isDigit s1 in
    let fp := match s2 with
              | String.String "." r => str_take_while isDigit r
              | _ => EmptyString
              end in
    if (String.length ip + String.length fp =? 0)%nat then Thrown invalid_argument
    else
      let num := digits_value (digits_value 0%Z ip) fp in
      let den := Z.to_pos (10 ^ Z.of_nat (String.length fp))%Z in
      match binary32_round (Qmake (if neg then (- num)%Z else num) den) with
      | Some f => Returned f
      | None => Thrown out_of_range
      end.

  (** *** The parser *)

  (** mdl::HotspotRect *)
Record HotspotRect := mkHotspotRect {
    rectMin : float * float;
    rectSize : float * float;
    tileU : bool;
    tileV : bool;
    weight : float
  }.

  (** using HotspotRectMap = std::unordered_map<std::string, std::vector<HotspotRect>> *)
Abbreviation HotspotRectMap := (gmap string (list HotspotRect)).

Definition blanks : string :=
    String.String " " (String.String TAB (String.String CR (String.String LF EmptyString))).

Fixpoint find_first_not_of (set s : string) : option nat :=
    match s with
    | EmptyString => None
    | String.String c r =>
        if isAnyOf c set then option_map S (find_first_not_of set r) else Some O
    end.

Fixpoint find_last_not_of (set s : string) : option nat :=
    match s with
    | EmptyString => None
    | String.String c r =>
        match find_last_not_of set r with
        | Some i => Some (S i)
        | None => if isAnyOf c set then None else Some O
        end
    end.

  (** std::string trim(std::string_view value) *)
Definition trim (value : string) : string :=
    match find_first_not_of blanks value with
    | None => EmptyString
    | Some start =>
        match find_last_not_of blanks value with
        | Some e => substring start (e - start + 1) value
        | None => EmptyString
        end
    end.

  (** std::string stripComments(const std::string& line) *)
Definition stripComments (line : string) : string :=
    let slashPos := String.index 0 "//" line in
    let hashPos := String.index 0 "#" line in
    let cutPos :=
      Nat.min (match slashPos with None => String.length line | Some p => p end)
              (match hashPos with None => String.length line | Some p => p end) in
    substring 0 cutPos line.

Definition is_brace (c : ascii) : bool := (c =? "{") || (c =? "}").

  (** std::vector<std::string> tokenizeLine(const std::string& line); the
      first argument bounds the rounds of the outer loop, each of which
      consumes at least one character. *)
Fixpoint tokenizeLine_loop (rounds : nat) (line : string) : list string :=
    match rounds with
    | O => []
    | S n =>
        match str_drop_while isspace line with
        | EmptyString => []
        | String.String c rest as line1 =>
            if is_brace c then
              String.String c EmptyString :: tokenizeLine_loop n rest
            else if c =? DQUOTE then
              let inner := str_take_while (fun x => negb (x =? DQUOTE)) rest in
              let after := str_drop_while (fun x => negb (x =? DQUOTE)) rest in
              inner :: tokenizeLine_loop n
                         (match after with
                          | String.String _ r => r
                          | EmptyString => EmptyString
                          end)
            else
              let word := fun x => negb (isspace x) && negb (is_brace x) in
              str_take_while word line1 :: tokenizeLine_loop n (str_drop_while word line1)
        end
    end.

Definition tokenizeLine (line : string) : list string :=
    tokenizeLine_loop (String.length line) line.

Definition tolower (c : ascii) : ascii :=
    let n := nat_of_ascii c in
    if (65 <=? n)%nat && (n <=? 90)%nat then ascii_of_nat (n + 32) else c.

  (** std::string toLower(std::string_view value) *)
Fixpoint toLower (value : string) : string :=
    match value with
    | EmptyString => EmptyString
    | String.String c r => String.String (tolower c) (toLower r)
    end.

  (** bool isRectanglesKeyword(const std::string& value) *)
Definition isRectanglesKeyword (value : string) : bool :=
    let lower := toLower value in
    String.eqb lower "rectangles" || String.eqb lower "rectangle".

  (** std::optional<std::string> currentTextureName(stack): the scope stack
      is a vector, its last element is the innermost scope. *)
Definition currentTextureName (stack : list string) : option string :=
    List.find (fun it => negb (String.eqb it EmptyString) && negb (isRectanglesKeyword it))
              (rev stack).

  (** One match of the number pattern [-+]?\d*\.?\d+ at the start of the
      text, under the backtracking rules of ECMAScript expressions: all
      digits, then a point only when a digit follows it, then all digits;
      without a fraction the last digit of the first run serves as the
      mandatory one.  The result is the match and the text behind it. *)
Definition match_unsigned (s : string) : option (string * string) :=
    let ip := str_take_while isDigit s in
    let r := str_drop_while isDigit s in
    match r with
    | String.String "." r' =>
        let fp := str_take_while isDigit r' in
        if negb (String.length fp =? 0)%nat then
          Some (ip ++ String.String "." fp, str_drop_while isDigit r')%string
        else if negb (String.length ip =? 0)%nat then Some (ip, r) else None
    | _ => if negb (String.length ip =? 0)%nat then Some (ip, r) else None
    end.

Definition match_number (s : string) : option (string * string) :=
    match s with
    | String.String c r =>
        if (c =? "-") || (c =? "+") then
          match match_unsigned r with
          | Some (m, rest) => Some (String.String c m, rest)
          | None => None
          end
        else match_unsigned s
    | EmptyString => None
    end.

  (** The matches a [std::sregex_iterator] walks through, from left to
      right and without overlap. *)
Fixpoint number_matches (rounds : nat) (s : string) : list string :=
    match rounds with
    | O => []
    | S n =>
        match s with
        | EmptyString => []
        | String.String _ r =>
            match match_number s with
            | Some (m, rest) => m :: number_matches n rest
            | None => number_matches n r
            end
        end
    end.

Fixpoint stof_all (ms : list string) : Exc (list float) :=
    match ms with
    | [] => Returned []
    | m :: ms' =>
        match stof m with
        | Thrown e => Thrown e
        | Returned v =>
            match stof_all ms' with
            | Thrown e => Thrown e
            | Returned vs => Returned (v :: vs)
            end
        end
    end.

  (** std::vector<float> parseNumbers(const std::string& line) *)
Definition parseNumbers (line : string) : Exc (list float) :=
    stof_all (number_matches (String.length line) line).

Section Parser.

    (** [kdl::str_to_float] of kd/string_utils.h is not among the sources:
        it is a parameter of the parser.  It returns an optional and does
        not throw. *)
Variable str_to_float : string -> option float.

    (** std::optional<float> parseWeightToken(const std::string& token) *)
Definition parseWeightToken (token : string) : option float :=
      match String.index 0 "=" token with
      | None => None
      | Some pos =>
          let key := toLower (substring 0 pos token) in
          if negb (String.eqb key "weight") && negb (String.eqb key "w") then None
          else str_to_float (substring (pos + 1) (String.length token - (pos + 1)) token)
      end.

    (** float parseWeight(const std::vector<std::string>& tokens) *)
Fixpoint parseWeight (tokens : list string) : float :=
      match tokens with
      | [] => 1%Q
      | t :: rest =>
          match parseWeightToken t with
          | Some value => value
          | None =>
              let lower := toLower t in
              match (if String.eqb lower "weight" || String.eqb lower "w" then
                       match rest with
                       | next :: _ => str_to_float next
                       | [] => None
                       end
                     else None) with
              | Some value => value
              | None => parseWeight rest
              end
          end
      end.

    (** bool hasToken(tokens, token) *)
Definition hasToken (tokens : list string) (token : string) : bool :=
      existsb (fun value => String.eqb (toLower value) token) tokens.

    (** The lines [std::getline] reads from the contents. *)
Fixpoint getlines (s : string) : list string :=
      match s with
      | EmptyString => []
      | String.String c r =>
          if c =? LF then EmptyString :: getlines r
          else match getlines r with
               | [] => [String.String c EmptyString]
               | l :: ls => String.String c l :: ls
               end
      end.

    (** What the parser carries from line to line. *)
Record ParseState := mkParseState {
      result : HotspotRectMap;
      scopeStack : list string;
      pendingBlockName : option string
    }.

    (** The loop over the tokens of a line that opens and closes scopes;
        [prev] is [tokens[i - 1]] when [i > 0]. *)
Fixpoint updateScopes (prev : option string) (tokens : list string)
        (stack : list string) (pending : option string)
        : list string * option string :=
      match tokens with
      | [] => (stack, pending)
      | t :: ts =>
          if String.eqb t "{" then
            let name :=
              match prev with
              | Some p => p
              | None => match pending with Some b => b | None => EmptyString end
              end in
            updateScopes (Some t) ts (stack ++ [name]) None
          else if String.eqb t "}" && negb (Nat.eqb (length stack) 0) then
            updateScopes (Some t) ts (removelast stack) pending
          else updateScopes (Some t) ts stack pending
      end.

Definition tileU_aliases : list string :=
      ["tileu"; "tile_u"; "repeatu"; "repeat_u"; "tilex"; "tile-h"; "tileh"]%string.
Definition tileV_aliases : list string :=
      ["tilev"; "tile_v"; "repeatv"; "repeat_v"; "tiley"; "tile-v"]%string.

Definition fle0 (x : float) : bool := Qle_bool x 0.

    (** The body of the [while (std::getline(stream, rawLine))] loop. *)
Definition parseLine (defaultTextureName : option string) (st : ParseState)
        (rawLine : string) : Exc ParseState :=
      let cleanedLine := trim (stripComments rawLine) in
      if String.eqb cleanedLine EmptyString then Returned st
      else
        let tokens := tokenizeLine cleanedLine in
        let '(stack, pending0) :=
          updateScopes None tokens (scopeStack st) (pendingBlockName st) in
        let pending :=
          match tokens with
          | [front] =>
              if negb (String.eqb front "{") && negb (String.eqb front "}") then
                match str_to_float front with
                | None => Some front
                | Some _ => pending0
                end
              else pending0
          | _ => pending0
          end in
        let st1 := mkParseState (result st) stack pending in
        let textureName :=
          match currentTextureName stack with
          | Some n => Some n
          | None => defaultTextureName
          end in
        match textureName with
        | None => Returned st1
        | Some name =>
            match parseNumbers cleanedLine with
            | Thrown e => Thrown e
            | Returned (x :: y :: w :: h :: _) =>
                if fle0 w || fle0 h then Returned st1
                else
                  let rect :=
                    {| rectMin := (x, y); rectSize := (w, h);
                       tileU := existsb (hasToken tokens) tileU_aliases;
                       tileV := existsb (hasToken tokens) tileV_aliases;
                       weight := parseWeight tokens |} in
                  Returned
                    (mkParseState
                       (<[name := default [] (result st !! name) ++ [rect]]> (result st))
                       stack pending)
            | Returned _ => Returned st1
            end
        end.

Fixpoint parseLines (defaultTextureName : option string) (st : ParseState)
        (lines : list string) : Exc ParseState :=
      match lines with
      | [] => Returned st
      | l :: ls =>
          match parseLine defaultTextureName st l with
          | Thrown e => Thrown e
          | Returned st' => parseLines defaultTextureName st' ls
          end
      end.

    (** Result<HotspotRectMap> parseHotspotRectFile(contents, defaultTextureName) *)
Definition parseHotspotRectFile (contents : string)
        (defaultTextureName : option string) : Exc (Result HotspotRectMap) :=
      match parseLines defaultTextureName (mkParseState ∅ [] None) (getlines contents) with
      | Thrown e => Thrown e
      | Returned st => Returned (Success (result st))
      end.

End Parser.

  (** Modelled from the spec: [kdl::str_to_float] as used where a closed
      term is needed: the whole token has to be a decimal numeral in the
      range of [float]. *)
Definition str_to_float_decimal (str : string) : option float :=
    match match_number str with
    | Some (_, EmptyString) =>
        match stof str with Returned f => Some f | Thrown _ => None end
    | _ => None
    end.

End Hotspot.

(** ** Patch grid resizing (io/StandardMapParser.cpp) *)

Module PatchResize.
Import PatchCount.

(** Two nested counting loops that append one element per cell, row by
    row; an element that cannot be read (an index outside its vector, which
    C++ leaves undefined) makes the whole result undefined. *)
Definition grid_of {A : Type} (rows cols : nat) (f : nat -> nat -> option A)
    : option (list A) :=
  mjoin <$> mapM (fun r => mapM (f r) (seq 0 cols)) (seq 0 rows).

(** The index [sourceRow * sourceColumnCount + sourceCol] that the resize
    loops read, in [size_t] arithmetic. *)
Definition sourceIndex (sourceRowCount sourceColumnCount : Z) (row col : nat) : Z :=
  let sourceRow := Z.min (Z.of_nat row) (size_wrap (sourceRowCount - 1)) in
  let sourceCol := Z.min (Z.of_nat col) (size_wrap (sourceColumnCount - 1)) in
  size_wrap (size_wrap (sourceRow * sourceColumnCount) + sourceCol).

(** std::vector<vm::vec<double, 5>> resizePatchControlPoints(...); [zero]
    is the value-initialised vector. *)
Definition resizePatchControlPoints {A : Type} (zero : A)
    (sourceRowCount sourceColumnCount targetRowCount targetColumnCount : Z)
    (controlPoints : list A) : option (list A) :=
  if (sourceRowCount =? 0) || (sourceColumnCount =? 0) then
    Some (replicate (Z.to_nat (size_wrap (targetRowCount * targetColumnCount))) zero)
  else
    grid_of (Z.to_nat targetRowCount) (Z.to_nat targetColumnCount)
      (fun row col =>
         controlPoints !! Z.to_nat (sourceIndex sourceRowCount sourceColumnCount row col)).

(** std::vector<vm::vec3d> resizePatchControlNormals(...) *)
Definition resizePatchControlNormals {A : Type}
    (sourceRowCount sourceColumnCount targetRowCount targetColumnCount : Z)
    (controlNormals : list A) : option (list A) :=
  if (sourceRowCount =? 0) || (sourceColumnCount =? 0)
     || (Nat.eqb (length controlNormals) 0) then Some []
  else
    grid_of (Z.to_nat targetRowCount) (Z.to_nat targetColumnCount)
      (fun row col =>
         controlNormals !! Z.to_nat (sourceIndex sourceRowCount sourceColumnCount row col)).

(** What [parsePatch] hands to [onPatch]. *)
Record PatchGrid (P N : Type) := mkPatchGrid {
  gridRowCount : Z;
  gridColumnCount : Z;
  gridPoints : list P;
  gridNormals : list N
}.
Arguments mkPatchGrid {P N}.
Arguments gridRowCount {P N}.
Arguments gridColumnCount {P N}.
Arguments gridPoints {P N}.
Arguments gridNormals {P N}.

(** [int] counts that are not positive are read as 1, with a warning;
    the result is the [size_t] count. *)
Definition readPatchCount (countInt : Z) (location : FileLocation) (what : string)
    (status : ParserStatus) : Z * ParserStatus :=
  if countInt <=? 0 then
    (1, warn location ("Invalid patch " ++ what ++ ", assuming 1") status)
  else (countInt, status).

(** The end of [StandardMapParser::parsePatch]: both counts are sanitized
    and, when one of them changed, the control points (and, for patchDef3,
    the control normals) that were read are resized. *)
Definition finishPatch {P N : Type} (zero : P) (isPatchDef3 : bool)
    (rowCount columnCount : Z) (rowLocation columnLocation : FileLocation)
    (controlPoints : list P) (controlNormals : list N) (status : ParserStatus)
    : option (PatchGrid P N * ParserStatus) :=
  let '(sanitizedRowCount, status1) :=
    sanitizePatchCount rowCount "height" rowLocation status in
  let '(sanitizedColumnCount, status2) :=
    sanitizePatchCount columnCount "width" columnLocation status1 in
  if negb (sanitizedRowCount =? rowCount) || negb (sanitizedColumnCount =? columnCount)
  then
    match resizePatchControlPoints zero rowCount columnCount
            sanitizedRowCount sanitizedColumnCount controlPoints with
    | None => None
    | Some points =>
        match (if isPatchDef3 then
                 resizePatchControlNormals rowCount columnCount
                   sanitizedRowCount sanitizedColumnCount controlNormals
               else Some controlNormals) with
        | None => None
        | Some normals =>
            Some (mkPatchGrid sanitizedRowCount sanitizedColumnCount points normals,
                  status2)
        end
    end
  else
    Some (mkPatchGrid sanitizedRowCount sanitizedColumnCount controlPoints controlNormals,
          status2).

(** The contract of the [BezierPatch] constructor (mdl/BezierPatch.cpp). *)
Definition patch_contract {P N : Type} (g : PatchGrid P N) : Prop :=
  2 < gridRowCount g /\ 2 < gridColumnCount g
  /\ gridRowCount g mod 2 = 1 /\ gridColumnCount g mod 2 = 1
  /\ Z.of_nat (length (gridPoints g)) = gridRowCount g * gridColumnCount g
  /\ (gridNormals g = []
      \/ Z.of_nat (length (gridNormals g)) = gridRowCount g * gridColumnCount g).

End PatchResize.

(** Auxiliary notions for statements about the hotspot parser. *)
Module HotspotAux.
Import Hotspot.
Import Tok (isAnyOf, isDigit).
Local Open Scope string_scope.

(** A scope name that can be a texture name: not empty and not the
    rectangles keyword. *)
Definition isTextureScope (name : string) : bool :=
  negb (String.eqb name EmptyString) && negb (isRectanglesKeyword name).

Definition isBlank (c : ascii) : bool := isAnyOf c blanks.

(** The text without its trailing blanks. *)
Fixpoint rtrim (s : string) : string :=
  match s with
  | EmptyString => EmptyString
  | String.String c r =>
      match rtrim r with
      | EmptyString => if isBlank c then EmptyString else String.String c EmptyString
      | r' => String.String c r'
      end
  end.

Definition ltrim (s : string) : string := str_drop_while isBlank s.

Definition stops (p : ascii -> bool) (t : string) : Prop :=
  match t with EmptyString => True | String.String c _ => p c = false end.

(** What [stof] sees of a numeral without sign. *)
Definition unsigned_digits (m : string) : nat :=
  let ip := str_take_while isDigit m in
  let fp := match str_drop_while isDigit m with
            | String.String "." r => str_take_while isDigit r
            | _ => EmptyString
            end in
  String.length ip + String.length fp.

(** Whether a character occurs in a text. *)
Fixpoint has_char (c : ascii) (s : string) : bool :=
  match s with
  | EmptyString => false
  | String.String d r => Ascii.eqb d c || has_char c r
  end.

End HotspotAux.

(** ** Bezier patches (mdl/BezierPatch.cpp) *)

Module Patch.
Import PatchResize.

Section BezierPatch.

(** [BezierPatch::Point] is [vm::vec<double, 5>], [BezierPatch::Normal] is
    [vm::vec3d].  The vector library (vm) is not among the sources: the
    vector types, the bounding box builder and the surface evaluation are
    parameters of the model. *)
Context {Point Normal Vec3 BBox Builder SurfaceValue : Type}.
Variable xyz : Point -> Vec3.
Variable builder_new : Builder.
Variable builder_add : Builder -> Vec3 -> Builder.
Variable builder_bounds : Builder -> BBox.

(** vm::bbox3d computeBounds(const std::vector<BezierPatch::Point>& points) *)
Definition computeBounds (points : list Point) : BBox :=
  builder_bounds (fold_left (fun builder point => builder_add builder (xyz point))
                            points builder_new).

Record BezierPatch := mkBezierPatch {
  m_pointRowCount : Z;
  m_pointColumnCount : Z;
  m_controlPoints : list Point;
  m_controlNormals : list Normal;
  m_bounds : BBox;
  m_materialName : string;
  m_surfaceContents : Z;
  m_surfaceFlags : Z;
  m_surfaceValue : SurfaceValue
}.

Definition size_mul (a b : Z) : Z := size_wrap (a * b).
Definition size_add (a b : Z) : Z := size_wrap (a + b).
Definition size_sub (a b : Z) : Z := size_wrap (a - b).

(** The length of a vector as a [size_t]. *)
Definition size {A} (l : list A) : Z := Z.of_nat (length l).

(** The constructor; a violated [contract_pre] ends the program, which is
    the result [None]. *)
Definition make (pointRowCount pointColumnCount : Z) (controlPoints : list Point)
    (materialName : string) (surfaceContents surfaceFlags : Z)
    (surfaceValue : SurfaceValue) (controlNormals : list Normal)
    : option BezierPatch :=
  if negb ((2 <? pointRowCount) && (2 <? pointColumnCount)) then None
  else if negb ((pointRowCount mod 2 =? 1) && (pointColumnCount mod 2 =? 1)) then None
  else if negb (size controlPoints =? size_mul pointRowCount pointColumnCount) then None
  else if negb ((size controlNormals =? 0)
                || (size controlNormals =? size_mul pointRowCount pointColumnCount))
  then None
  else Some (mkBezierPatch pointRowCount pointColumnCount controlPoints controlNormals
               (computeBounds controlPoints) materialName
               surfaceContents surfaceFlags surfaceValue).

Definition pointRowCount (p : BezierPatch) : Z := m_pointRowCount p.
Definition pointColumnCount (p : BezierPatch) : Z := m_pointColumnCount p.
Definition quadRowCount (p : BezierPatch) : Z := size_sub (m_pointRowCount p) 1.
Definition quadColumnCount (p : BezierPatch) : Z := size_sub (m_pointColumnCount p) 1.
Definition surfaceRowCount (p : BezierPatch) : Z := quadRowCount p / 2.
Definition surfaceColumnCount (p : BezierPatch) : Z := quadColumnCount p / 2.
Definition hasControlNormals (p : BezierPatch) : bool :=
  negb (size (m_controlNormals p) =? 0).

(** [vector[i]]; reading outside the vector is undefined. *)
Definition at_ {A} (l : list A) (i : Z) : option A := l !! Z.to_nat i.

(** The index [row * m_pointColumnCount + col]. *)
Definition cellIndex (p : BezierPatch) (row col : Z) : Z :=
  size_add (size_mul row (m_pointColumnCount p)) col.

(** const Point& BezierPatch::controlPoint(row, col) const *)
Definition controlPoint (p : BezierPatch) (row col : Z) : option Point :=
  if negb (row <? m_pointRowCount p) then None
  else if negb (col <? m_pointColumnCount p) then None
  else at_ (m_controlPoints p) (cellIndex p row col).

(** const Normal& BezierPatch::controlNormal(row, col) const *)
Definition controlNormal (p : BezierPatch) (row col : Z) : option Normal :=
  if size (m_controlNormals p) =? 0 then None
  else if negb (row <? m_pointRowCount p) then None
  else if negb (col <? m_pointColumnCount p) then None
  else at_ (m_controlNormals p) (cellIndex p row col).

(** void BezierPatch::setControlNormals(std::vector<Normal> controlNormals) *)
Definition setControlNormals (controlNormals : list Normal) (p : BezierPatch)
    : option BezierPatch :=
  if negb ((size controlNormals =? 0)
           || (size controlNormals =? size (m_controlPoints p))) then None
  else Some (mkBezierPatch (m_pointRowCount p) (m_pointColumnCount p)
               (m_controlPoints p) controlNormals (m_bounds p) (m_materialName p)
               (m_surfaceContents p) (m_surfaceFlags p) (m_surfaceValue p)).

(** void BezierPatch::setControlPoint(row, col, controlPoint); writing
    outside the vector is undefined. *)
Definition setControlPoint (row col : Z) (point : Point) (p : BezierPatch)
    : option BezierPatch :=
  if negb (row <? m_pointRowCount p) then None
  else if negb (col <? m_pointColumnCount p) then None
  else
    let i := Z.to_nat (cellIndex p row col) in
    if negb (i <? length (m_controlPoints p))%nat then None
    else
      let points := <[i := point]> (m_controlPoints p) in
      Some (mkBezierPatch (m_pointRowCount p) (m_pointColumnCount p)
              points (m_controlNormals p) (computeBounds points) (m_materialName p)
              (m_surfaceContents p) (m_surfaceFlags p) (m_surfaceValue p)).

(** void BezierPatch::setSurfaceAttributes(contents, flags, value) *)
Definition setSurfaceAttributes (contents flags : Z) (value : SurfaceValue)
    (p : BezierPatch) : BezierPatch :=
  mkBezierPatch (m_pointRowCount p) (m_pointColumnCount p)
    (m_controlPoints p) (m_controlNormals p) (m_bounds p) (m_materialName p)
    contents flags value.

(** *** Evaluation *)

Section Evaluate.
Context {V : Type}.

(** [SurfaceControlPoints<Vec>]: three rows of three control points. *)
Definition SurfaceControlPoints : Type := list (list V).

Variable evaluate_quadratic_bezier_surface : SurfaceControlPoints -> Q -> Q -> V.

(** collectSurfaceControlPoints(controlPoints, pointColumnCount, surfaceRow,
    surfaceCol) *)
Definition collectSurfaceControlPoints (controlPoints : list V)
    (pointColumnCount surfaceRow surfaceCol : Z) : option SurfaceControlPoints :=
  let rowOffset := size_mul 2 surfaceRow in
  let colOffset := size_mul 2 surfaceCol in
  mapM (fun row : nat =>
          mapM (fun col : nat =>
                  at_ controlPoints
                    (size_add
                       (size_add
                          (size_mul (size_add (Z.of_nat row) rowOffset) pointColumnCount)
                          (Z.of_nat col))
                       colOffset))
               (seq 0 3))
       (seq 0 3).

(** collectAllSurfaceControlPoints(controlPoints, pointRowCount,
    pointColumnCount) *)
Definition collectAllSurfaceControlPoints (controlPoints : list V)
    (pointRowCount pointColumnCount : Z) : option (list SurfaceControlPoints) :=
  let surfaceRowCount := size_sub pointRowCount 1 / 2 in
  let surfaceColumnCount := size_sub pointColumnCount 1 / 2 in
  grid_of (Z.to_nat surfaceRowCount) (Z.to_nat surfaceColumnCount)
    (fun surfaceRow surfaceCol =>
       collectSurfaceControlPoints controlPoints pointColumnCount
         (Z.of_nat surfaceRow) (Z.of_nat surfaceCol)).

(** [1u << n] on a 32 bit [unsigned]; shifting by the width or more is
    undefined. *)
Definition shl1 (n : Z) : option Z :=
  if n <? 32 then Some (2 ^ n mod 2 ^ 32) else None.

(** The surface index and the parameter of a grid row or column. *)
Definition surfaceOf (gridIndex quadsPerSurfaceSide : Z) : Z :=
  (if 0 <? gridIndex then size_sub gridIndex 1 else gridIndex) / quadsPerSurfaceSide.

Definition parameterOf (gridIndex quadsPerSurfaceSide : Z) : Q :=
  (inject_Z (size_sub gridIndex
               (size_mul (surfaceOf gridIndex quadsPerSurfaceSide) quadsPerSurfaceSide))
   / inject_Z quadsPerSurfaceSide)%Q.

(** evaluatePatchGrid(controlPoints, pointRowCount, pointColumnCount,
    subdivisionsPerSurface) *)
Definition evaluatePatchGrid (controlPoints : list V)
    (pointRowCount pointColumnCount subdivisionsPerSurface : Z) : option (list V) :=
  match collectAllSurfaceControlPoints controlPoints pointRowCount pointColumnCount with
  | None => None
  | Some allSurfaceControlPoints =>
      match shl1 subdivisionsPerSurface with
      | None => None
      | Some quadsPerSurfaceSide =>
          let surfaceRowCount := size_sub pointRowCount 1 / 2 in
          let surfaceColumnCount := size_sub pointColumnCount 1 / 2 in
          let gridPointRowCount :=
            size_add (size_mul surfaceRowCount quadsPerSurfaceSide) 1 in
          let gridPointColumnCount :=
            size_add (size_mul surfaceColumnCount quadsPerSurfaceSide) 1 in
          grid_of (Z.to_nat gridPointRowCount) (Z.to_nat gridPointColumnCount)
            (fun gridRow gridCol =>
               let surfaceRow := surfaceOf (Z.of_nat gridRow) quadsPerSurfaceSide in
               let v := parameterOf (Z.of_nat gridRow) quadsPerSurfaceSide in
               let surfaceCol := surfaceOf (Z.of_nat gridCol) quadsPerSurfaceSide in
               let u := parameterOf (Z.of_nat gridCol) quadsPerSurfaceSide in
               match at_ allSurfaceControlPoints
                       (size_add (size_mul surfaceRow surfaceColumnCount) surfaceCol) with
               | None => None
               | Some surfaceControlPoints =>
                   Some (evaluate_quadratic_bezier_surface surfaceControlPoints u v)
               end)
      end
  end.

End Evaluate.

Variable evaluate_points : @SurfaceControlPoints Point -> Q -> Q -> Point.
Variable evaluate_normals : @SurfaceControlPoints Normal -> Q -> Q -> Normal.

(** std::vector<Point> BezierPatch::evaluate(subdivisionsPerSurface) const *)
Definition evaluate (p : BezierPatch) (subdivisionsPerSurface : Z) : option (list Point) :=
  evaluatePatchGrid evaluate_points (m_controlPoints p)
    (m_pointRowCount p) (m_pointColumnCount p) subdivisionsPerSurface.

(** std::vector<Normal> BezierPatch::evaluateNormals(subdivisionsPerSurface) const *)
Definition evaluateNormals (p : BezierPatch) (subdivisionsPerSurface : Z)
    : option (list Normal) :=
  if size (m_controlNormals p) =? 0 then Some []
  else evaluatePatchGrid evaluate_normals (m_controlNormals p)
         (m_pointRowCount p) (m_pointColumnCount p) subdivisionsPerSurface.

(** The class invariant that the constructor's contract establishes. *)
Definition valid (p : BezierPatch) : Prop :=
  2 < m_pointRowCount p /\ 2 < m_pointColumnCount p
  /\ m_pointRowCount p mod 2 = 1 /\ m_pointColumnCount p mod 2 = 1
  /\ m_pointRowCount p * m_pointColumnCount p < 2 ^ size_bits
  /\ size (m_controlPoints p) = m_pointRowCount p * m_pointColumnCount p
  /\ (m_controlNormals p = []
      \/ size (m_controlNormals p) = m_pointRowCount p * m_pointColumnCount p).

End BezierPatch.

End Patch.

(** ** Auxiliary definitions for the statements about Bezier patches *)

Module PatchAux.
Import Patch.

(** The dimensions of a grid of control points, as the constructor
    demands them. *)
Definition grid_dims (rows cols : Z) (n : nat) : Prop :=
  2 < rows /\ 2 < cols /\ rows mod 2 = 1 /\ cols mod 2 = 1
  /\ rows * cols < 2 ^ size_bits /\ Z.of_nat n = rows * cols.

(** The control point in row [a], column [b] of a surface. *)
Definition surfacePoint {V} (scp : @SurfaceControlPoints V) (a b : nat) : option V :=
  (scp !! a) ≫= (fun row => row !! b).

(** A grid of three rows and five columns, and a patch of three rows and
    three columns over integer points, for the examples. *)
Definition grid_3x5 : list Z := [1; 2; 3; 4; 5; 6; 7; 8; 9; 10; 11; 12; 13; 14; 15].

Definition patch_3x3 : @BezierPatch Z Z unit unit :=
  mkBezierPatch 3 3 [1; 2; 3; 4; 5; 6; 7; 8; 9] [] tt EmptyString 0 0 tt.

Definition bounds_list (builder : list Z) : unit := tt.

End PatchAux.

(** ** Auxiliary definitions for the statements about the lines of a
    hotspot file *)

Module HotspotLineAux.
Import Hotspot HotspotAux.
Local Open Scope string_scope.

(** The characters of a text that satisfy [p], in order. *)
Fixpoint str_filter (p : ascii -> bool) (s : string) : string :=
  match s with
  | EmptyString => EmptyString
  | String.String c r =>
      if p c then String.String c (str_filter p r) else str_filter p r
  end.

(** All characters of a text satisfy [p]. *)
Fixpoint str_all (p : ascii -> bool) (s : string) : bool :=
  match s with
  | EmptyString => true
  | String.String c r => p c && str_all p r
  end.

(** The tokens written one after the other. *)
Definition concat_tokens (tokens : list string) : string :=
  fold_right String.append EmptyString tokens.

Definition notspace (c : ascii) : bool := negb (isspace c).

(** A token is one brace. *)
Definition isBraceToken (t : string) : bool := String.eqb t "{" || String.eqb t "}".

(** A token is the key of a weight given as two tokens. *)
Definition isWeightKey (t : string) : bool :=
  String.eqb (toLower t) "weight" || String.eqb (toLower t) "w".

(** Both extents of a rectangle are positive. *)
Definition positive_size (r : HotspotRect) : Prop :=
  (0 < fst (rectSize r))%Q /\ (0 < snd (rectSize r))%Q.

(** What a token of a line without quotation marks looks like. *)
Definition plain_token (t : string) : Prop :=
  t <> EmptyString /\ str_all notspace t = true
  /\ (isBraceToken t = true
      \/ (has_char "{" t = false /\ has_char "}" t = false)).

(** What parseHotspotRectFile keeps true of its result. *)
Definition rects_ok (defaultTextureName : option string) (m : HotspotRectMap) : Prop :=
  forall name rects, m !! name = Some rects ->
    rects <> [] /\ Forall positive_size rects
    /\ (defaultTextureName = Some name \/ isTextureScope name = true).

(** A block of one rectangle over three lines, and the rectangle, for the
    examples. *)
Definition block_text : string :=
  "foo {" ++ String.String Tok.LF "0 0 32 32 tileu w=2" ++ String.String Tok.LF "}".

Definition block_rect : HotspotRect :=
  mkHotspotRect (0%Q, 0%Q) (32%Q, 32%Q) true false 2%Q.

End HotspotLineAux.

(** ** BezierPatch::transform (mdl/BezierPatch.cpp) *)

Module PatchTransform.
Import Patch.

Section Transform.

(** The matrices and their operations belong to the vector library, as the
    vectors do: [transform_point m p] is
    [Point{m * p.xyz(), p[3], p[4]}], [transform_normal m n] is
    [vm::normalize(normalTransform * n)] for the [normalTransform] that the
    function derives from [m], and [is_zero n] is
    [vm::is_zero(n, vm::constants<double>::almost_zero())]. *)
Context {Point Normal Vec3 BBox Builder SurfaceValue Mat : Type}.
Variable xyz : Point -> Vec3.
Variable builder_new : Builder.
Variable builder_add : Builder -> Vec3 -> Builder.
Variable builder_bounds : Builder -> BBox.
Variable transform_point : Mat -> Point -> Point.
Variable transform_normal : Mat -> Normal -> Normal.
Variable is_zero : Normal -> bool.
Variable is_orientation_preserving_transform : Mat -> bool.

(** The loop over [m_controlPoints]: every control point is replaced by
    its image and added to the builder. *)
Definition transformControlPoints (transformation : Mat) (points : list Point)
    : list Point * Builder :=
  fold_left
    (fun '(done, builder) controlPoint =>
       let controlPoint' := transform_point transformation controlPoint in
       (done ++ [controlPoint'], builder_add builder (xyz controlPoint')))
    points ([], builder_new).

(** The body of the loop over [m_controlNormals]. *)
Definition transformControlNormal (transformation : Mat) (controlNormal : Normal)
    : Normal :=
  if negb (is_zero controlNormal) then transform_normal transformation controlNormal
  else controlNormal.

(** [swap(vector[i], vector[j])] *)
Definition swapAt {A} (l : list A) (i j : Z) : option (list A) :=
  match at_ l i, at_ l j with
  | Some x, Some y => Some (<[Z.to_nat j := x]> (<[Z.to_nat i := y]> l))
  | _, _ => None
  end.

(** The body of the inner loop: the control points of row [r] in the
    columns [c] and [d] change places, and so do the control normals when
    there are any. *)
Definition swapCells (c d : Z) (p : @BezierPatch Point Normal BBox SurfaceValue) (r : Z)
    : option (@BezierPatch Point Normal BBox SurfaceValue) :=
  match controlPoint p r c, controlPoint p r d with
  | Some _, Some _ =>
      match swapAt (m_controlPoints p) (cellIndex p r c) (cellIndex p r d) with
      | None => None
      | Some points =>
          let p1 := mkBezierPatch (m_pointRowCount p) (m_pointColumnCount p)
                      points (m_controlNormals p) (m_bounds p) (m_materialName p)
                      (m_surfaceContents p) (m_surfaceFlags p) (m_surfaceValue p) in
          if size (m_controlNormals p1) =? 0 then Some p1
          else
            match controlNormal p1 r c, controlNormal p1 r d with
            | Some _, Some _ =>
                match swapAt (m_controlNormals p1) (cellIndex p1 r c) (cellIndex p1 r d) with
                | None => None
                | Some normals =>
                    Some (mkBezierPatch (m_pointRowCount p1) (m_pointColumnCount p1)
                            (m_controlPoints p1) normals (m_bounds p1) (m_materialName p1)
                            (m_surfaceContents p1) (m_surfaceFlags p1) (m_surfaceValue p1))
                end
            | _, _ => None
            end
      end
  | _, _ => None
  end.

(** A loop [for (size_t i = 0; i < n; ++i)] whose body may violate a
    contract. *)
Definition for_each_index {St} (n : Z) (body : St -> Z -> option St) (s : St) : option St :=
  fold_left (fun st i => st ≫= fun s' => body s' (Z.of_nat i)) (seq 0 (Z.to_nat n)) (Some s).

(** The body of the outer loop. *)
Definition mirrorColumn (p : @BezierPatch Point Normal BBox SurfaceValue) (c : Z)
    : option (@BezierPatch Point Normal BBox SurfaceValue) :=
  let d := size_sub (size_sub (m_pointColumnCount p) c) 1 in
  for_each_index (m_pointRowCount p) (swapCells c d) p.

(** void BezierPatch::transform(const vm::mat4x4d& transformation) *)
Definition transform (transformation : Mat)
    (p : @BezierPatch Point Normal BBox SurfaceValue)
    : option (@BezierPatch Point Normal BBox SurfaceValue) :=
  let '(points, builder) := transformControlPoints transformation (m_controlPoints p) in
  let normals :=
    if negb (size (m_controlNormals p) =? 0)
    then map (transformControlNormal transformation) (m_controlNormals p)
    else m_controlNormals p in
  let p1 := mkBezierPatch (m_pointRowCount p) (m_pointColumnCount p)
              points normals (builder_bounds builder) (m_materialName p)
              (m_surfaceContents p) (m_surfaceFlags p) (m_surfaceValue p) in
  if negb (is_orientation_preserving_transform transformation)
  then for_each_index (m_pointColumnCount p1 / 2) mirrorColumn p1
  else Some p1.

End Transform.

End PatchTransform.

(** ** Auxiliary definitions for the statements about transform *)

Module PatchTransformAux.
Import Patch.

(** Cell (r, c) of [l] is cell (r, f r c) of [l0]. *)
Definition grid_rel {A} (rows cols : Z) (f : Z -> Z -> Z) (l0 l : list A) : Prop :=
  length l = length l0
  /\ forall r c, 0 <= r < rows -> 0 <= c < cols ->
       at_ l (r * cols + c) = at_ l0 (r * cols + f r c).

(** The map [f] after the cells (j, k) and (j, d) changed places. *)
Definition swapped (f : Z -> Z -> Z) (j k d : Z) (r c : Z) : Z :=
  if decide (r = j /\ c = d) then f j k
  else if decide (r = j /\ c = k) then f j d
  else f r c.

(** The patch [p] is the patch [p0] with column [f r c] of row [r] moved
    to column [c]. *)
Definition patch_rel {Point Normal BBox SurfaceValue} (f : Z -> Z -> Z)
    (p0 p : @Patch.BezierPatch Point Normal BBox SurfaceValue) : Prop :=
  m_pointRowCount p = m_pointRowCount p0
  /\ m_pointColumnCount p = m_pointColumnCount p0
  /\ m_bounds p = m_bounds p0
  /\ m_materialName p = m_materialName p0
  /\ m_surfaceContents p = m_surfaceContents p0
  /\ m_surfaceFlags p = m_surfaceFlags p0
  /\ m_surfaceValue p = m_surfaceValue p0
  /\ grid_rel (m_pointRowCount p0) (m_pointColumnCount p0) f
       (m_controlPoints p0) (m_controlPoints p)
  /\ grid_rel (m_pointRowCount p0) (m_pointColumnCount p0) f
       (m_controlNormals p0) (m_controlNormals p).

(** The column that takes the place of column [c] of row [r] once the
    columns before [k] and the rows before [j] of column [k] are mirrored. *)
Definition mirrored (cols k j : Z) (r c : Z) : Z :=
  if decide (c < k \/ cols - k <= c \/ ((c = k \/ c = cols - 1 - k) /\ r < j))
  then cols - 1 - c else c.

End PatchTransformAux.

(** * Properties *)

Lemma size_wrap_small x : 0 <= x < 2 ^ size_bits -> size_wrap x = x.
Proof. intros H. unfold size_wrap. now apply Z.mod_small. Qed.

(** ** Patch dimension sanitization *)

Module PatchCountFacts.
Import PatchCount.

Example sanitize_2 :
    fst (sanitizePatchCount 2 "height" {| loc_line := 1; loc_column := 1 |} []) = 3.
Proof. reflexivity. Qed.

Example sanitize_4_message :
    snd (sanitizePatchCount 4 "width" {| loc_line := 7; loc_column := 3 |} [])
    = [{| warn_location := {| loc_line := 7; loc_column := 3 |};
          warn_message := "Invalid patch width, expanding to 5" |}].
Proof. reflexivity. Qed.

Lemma even_succ_odd count :
    0 <= count < 2 ^ size_bits -> count mod 2 = 0 ->
    size_wrap (count + 1) = count + 1 /\ (count + 1) mod 2 = 1.
Proof.
    intros Hr He. unfold size_bits in *.
    assert (count <> 2 ^ 64 - 1).
    { intros ->. vm_compute in He. discriminate. }
    split.
    - apply size_wrap_small. unfold size_bits. lia.
    - rewrite Z.add_mod by lia. rewrite He. reflexivity.
Qed.

  (** C5. Counts below 3 become 3, even counts of at least 3 become
      count+1, both with exactly one warning; odd counts of at least 3 are
      returned unchanged without a warning; sanitizing the sanitized count
      again changes neither the count nor the status. *)
Theorem sanitizePatchCount_spec count label location status :
    0 <= count < 2 ^ size_bits ->
    let r := sanitizePatchCount count label location status in
    (count < 3 -> fst r = 3 /\ warned_once status (snd r))
    /\ (3 <= count -> count mod 2 = 0 ->
        fst r = count + 1 /\ warned_once status (snd r))
    /\ (3 <= count -> count mod 2 = 1 -> r = (count, status))
    /\ sanitizePatchCount (fst r) label location (snd r) = r.
Proof.
    intros Hr r. subst r. unfold sanitizePatchCount.
    destruct (Z.ltb_spec count 3) as [Hlt | Hge].
    - repeat split; try lia; simpl.
      eexists; reflexivity.
    - destruct (Z.eqb_spec (count mod 2) 0) as [He | Ho].
      + destruct (even_succ_odd count Hr He) as [Hw Hodd].
        rewrite Hw. cbn [fst snd].
        repeat split; try lia.
        * eexists; unfold warn; reflexivity.
        * destruct (Z.ltb_spec (count + 1) 3); [lia |].
          rewrite Hodd. reflexivity.
      + cbn [fst snd].
        repeat split; try lia; try congruence.
        destruct (Z.ltb_spec count 3); [lia |].
        destruct (Z.eqb_spec (count mod 2) 0); [congruence | reflexivity].
Qed.

Lemma sanitizePatchCount_spec_witness :
    let r := sanitizePatchCount 4 "width" {| loc_line := 1; loc_column := 1 |} [] in
    (4 < 3 -> fst r = 3 /\ warned_once [] (snd r))
    /\ (3 <= 4 -> 4 mod 2 = 0 -> fst r = 4 + 1 /\ warned_once [] (snd r))
    /\ (3 <= 4 -> 4 mod 2 = 1 -> r = (4, []))
    /\ sanitizePatchCount (fst r) "width" {| loc_line := 1; loc_column := 1 |} (snd r) = r.
Proof.
    apply (sanitizePatchCount_spec 4 "width" {| loc_line := 1; loc_column := 1 |} []).
    unfold size_bits. lia.
Defined.

End PatchCountFacts.

(** ** The tokenizer *)

Module TokFacts.
Import Tok TokAux.
Local Open Scope nat_scope.

Lemma cur_advance_from c n rest s : cur (advance_from c n rest s) = rest.
Proof.
    unfold advance_from.
    destruct (((c =? CR) && negb (n =? LF)) || (c =? LF))%char; [reflexivity |].
    destruct (c =? CR)%char; reflexivity.
  Qed.

Lemma advance_length s s' :
    advance s = Ok s' -> String.length (cur s) = S (String.length (cur s')).
Proof.
    unfold advance. destruct (cur s) as [| c rest] eqn:E; [discriminate |].
    intros [= <-]. rewrite cur_advance_from. reflexivity.
Qed.

Lemma scan_length stop text s :
    cur s = text -> String.length (cur (scan stop text s)) <= String.length text.
Proof.
    revert s. induction text as [| c rest IH]; intros s E; simpl.
    - rewrite E. simpl. lia.
    - destruct (stop c).
      + rewrite E. simpl. lia.
      + etransitivity; [apply IH, cur_advance_from | lia].
Qed.

Lemma scan_progress stop c rest s :
    cur s = String.String c rest -> stop c = false ->
    String.length (cur (scan stop (cur s) s)) < String.length (cur s).
Proof.
    intros E Hc. rewrite E. simpl. rewrite Hc.
    apply Nat.lt_succ_r, scan_length, cur_advance_from.
Qed.

Lemma discardUntil_length delims s :
    String.length (cur (discardUntil delims s)) <= String.length (cur s).
Proof. apply scan_length. reflexivity. Qed.

Lemma curChar_cur s c :
    eof s = false -> curChar s = c -> exists rest, cur s = String.String c rest.
Proof.
    unfold eof, curChar. destruct (cur s); [discriminate |].
    intros _ <-. eauto.
Qed.

Lemma whitespace_progress s c :
    eof s = false -> curChar s = c -> isAnyOf c Whitespace = true ->
    String.length (cur (discardWhile Whitespace s)) < String.length (cur s).
Proof.
    intros He Hc Hw. destruct (curChar_cur s c He Hc) as [rest E].
    unfold discardWhile. eapply scan_progress; [exact E |].
    rewrite Hw. reflexivity.
Qed.

Lemma lineFeedCase_shorter skipEol c s s' ch :
    eof s = false -> curChar s = ch -> isAnyOf ch Whitespace = true ->
    lineFeedCase skipEol c s = Continue s' ->
    String.length (cur s') < String.length (cur s).
Proof.
    intros He Hc Hw. unfold lineFeedCase, whitespaceCase.
    destruct (negb skipEol).
    - destruct (advance s); discriminate.
    - intros [= <-]. eapply whitespace_progress; eauto.
Qed.

  (** A round that goes on has consumed at least one character. *)
Lemma round_continue_shorter skipEol s s' :
    eof s = false -> emitToken_round skipEol s = Continue s' ->
    String.length (cur s') < String.length (cur s).
Proof.
    intros He. unfold emitToken_round.
    destruct (Ascii.eqb_spec (curChar s) "/").
    { destruct (advance s) as [s1 |] eqn:A1; [| discriminate].
      apply advance_length in A1.
      destruct (curChar s1 =? "/")%char.
      - destruct (advance s1) as [s2 |] eqn:A2; [| discriminate].
        apply advance_length in A2.
        destruct (_ && _).
        + destruct (advance s2); discriminate.
        + intros [= <-]. pose proof (discardUntil_length LF_CR s2). lia.
      - intros [= <-]. lia. }
    destruct (Ascii.eqb_spec (curChar s) ";").
    { destruct (advance s) as [s1 |] eqn:A1; [| discriminate].
      apply advance_length in A1.
      intros [= <-]. pose proof (discardUntil_length LF_CR s1). lia. }
    repeat match goal with
    | |- context [if (curChar s =? ?c)%char then match advance s with _ => _ end else _] =>
        destruct (curChar s =? c)%char; [destruct (advance s); discriminate |]
    end.
    destruct (Ascii.eqb_spec (curChar s) CR) as [Hcr |].
    { destruct (lookAhead 1 s =? LF)%char eqn:HL.
      - destruct (advance s) as [s1 |] eqn:A1; [| discriminate].
        intros Hc.
        assert (cur s1 <> EmptyString /\ curChar s1 = LF) as [Hne Hlf].
        { unfold advance in A1. unfold lookAhead in HL.
          destruct (cur s) as [| c0 rest] eqn:E; [discriminate |].
          injection A1 as <-. unfold curChar. rewrite cur_advance_from.
          simpl in HL. destruct rest as [| c1 rest']; simpl in HL.
          - discriminate.
          - apply Ascii.eqb_eq in HL. subst. split; [discriminate | reflexivity]. }
        apply advance_length in A1.
        assert (eof s1 = false) by (unfold eof; destruct (cur s1); congruence).
        pose proof (lineFeedCase_shorter skipEol s s1 s' LF H Hlf eq_refl Hc). lia.
      - intros Hc.
        apply (lineFeedCase_shorter skipEol s s s' (curChar s) He eq_refl);
          [rewrite Hcr; reflexivity | exact Hc]. }
    destruct (Ascii.eqb_spec (curChar s) LF) as [Hlf |].
    { intros Hc.
      apply (lineFeedCase_shorter skipEol s s s' (curChar s) He eq_refl);
        [rewrite Hlf; reflexivity | exact Hc]. }
    destruct ((curChar s =? " ") || (curChar s =? TAB))%char eqn:Hsp.
    { unfold whitespaceCase. intros [= <-].
      apply (whitespace_progress s (curChar s) He eq_refl).
      apply orb_true_iff in Hsp as [H | H]; apply Ascii.eqb_eq in H; rewrite H; reflexivity. }
    destruct (readInteger _ _); [discriminate |].
    destruct (readDecimal _ _); [discriminate |].
    destruct (readUntil _ _); discriminate.
Qed.

  (** The number of rounds does not matter once it exceeds the length of
      the remaining text. *)
Lemma emitToken_loop_enough skipEol n m s :
    String.length (cur s) < n -> String.length (cur s) < m ->
    emitToken_loop n skipEol s = emitToken_loop m skipEol s.
Proof.
    revert m s. induction n as [| n IH]; intros m s Hn Hm; [lia |].
    destruct m as [| m]; [lia |]. simpl.
    destruct (eof s) eqn:He; [reflexivity |].
    destruct (emitToken_round skipEol s) as [| | s'] eqn:R; try reflexivity.
    pose proof (round_continue_shorter skipEol s s' He R).
    apply IH; lia.
Qed.

Lemma emitToken_loop_total skipEol n s :
    String.length (cur s) < n -> emitToken_loop n skipEol s <> None.
Proof.
    revert s. induction n as [| n IH]; intros s Hn; [lia |]. simpl.
    destruct (eof s) eqn:He; [discriminate |].
    destruct (emitToken_round skipEol s) as [| | s'] eqn:R; try discriminate.
    pose proof (round_continue_shorter skipEol s s' He R).
    apply IH; lia.
Qed.

  (** A round that goes on is invisible in the result of [emitToken]. *)
Lemma emitToken_continue skipEol s s' :
    eof s = false -> emitToken_round skipEol s = Continue s' ->
    emitToken skipEol s = emitToken skipEol s'.
Proof.
    intros He R. pose proof (round_continue_shorter skipEol s s' He R) as Hlt.
    unfold emitToken at 1. cbn [emitToken_loop]. rewrite He, R.
    unfold emitToken.
    rewrite (emitToken_loop_enough skipEol _ (S (String.length (cur s'))) s') by lia.
    destruct (emitToken_loop _ _ _) eqn:E; [reflexivity |].
    exfalso. revert E. apply emitToken_loop_total. lia.
Qed.

Local Open Scope string_scope.

Lemma cur_discardUntil_LF_CR s : cur (discardUntil LF_CR s) = skipLine (cur s).
Proof.
    unfold discardUntil. generalize (eq_refl (cur s)).
    generalize (cur s) at 1 3 4 as text. intros text. revert s.
    induction text as [| c rest IH]; intros s E; cbn [scan skipLine].
    - auto.
    - destruct (isAnyOf c LF_CR); [auto |].
      apply IH. now rewrite cur_advance_from.
Qed.

Lemma advance_slash rest off ln col esc :
  advance (mkState (String.String "/" rest) off ln col esc)
  = Ok (mkState rest (S off) ln (S col) false).
Proof. reflexivity. Qed.

Lemma slashes_round skipEol s r :
  cur s = "//" ++ r -> String.prefix "/ " r = false ->
  emitToken_round skipEol s = Continue (discardUntil LF_CR (afterSlashes s r)).
Proof.
  intros E Hp. destruct s as [text off ln col esc]. cbn [cur] in E. subst text.
  change ("//" ++ r) with (String.String "/" (String.String "/" r)).
  unfold emitToken_round, afterSlashes.
  change (curChar (mkState (String.String "/" (String.String "/" r)) off ln col esc))
    with "/"%char.
  change (Ascii.eqb "/" "/") with true. cbv iota.
  rewrite advance_slash.
  change (curChar (mkState (String.String "/" r) (S off) ln (S col) false))
    with "/"%char.
  change (Ascii.eqb "/" "/") with true. cbv iota.
  rewrite advance_slash.
  cbn [offset line column].
  unfold curChar, lookAhead. cbn [cur].
  destruct r as [| c r1]; [reflexivity |].
  cbn [String.get].
  destruct (Ascii.eqb_spec c "/") as [-> | Hc]; [| reflexivity].
  destruct r1 as [| d r2]; [reflexivity |].
  cbn [String.get]. 
  destruct (Ascii.eqb_spec d " ") as [-> | Hd]; [| reflexivity].
  simpl in Hp. destruct r2; discriminate.
Qed.

  (** C1 (as amended). At two slashes followed by a third slash and a
      blank, [emitToken] returns one Comment token whose text is exactly the
      three slashes, and the rest of the line stays in the buffer; at two
      slashes not followed by a slash and a blank, the text up to the next
      line feed or carriage return is discarded and [emitToken] answers as
      if it had been called right behind the comment: the comment yields no
      token. *)
Theorem emitToken_line_comment skipEol s r :
    cur s = "//" ++ r ->
    (forall r', r = "/ " ++ r' ->
       emitToken skipEol s
       = Ok ({| type := QuakeMapToken.Comment; data := "///";
                position := offset s; tline := line s; tcolumn := column s |},
             {| cur := " " ++ r'; offset := S (S (S (offset s))); line := line s;
                column := S (S (S (column s))); escaped := false |}))
    /\ (String.prefix "/ " r = false ->
        emitToken skipEol s = emitToken skipEol (discardUntil LF_CR (afterSlashes s r))
        /\ cur (discardUntil LF_CR (afterSlashes s r)) = skipLine r).
Proof.
    intros E. split.
    - intros r' ->. destruct s as [text off ln col esc]. simpl in E. subst text.
      reflexivity.
    - intros Hp. split; [| apply cur_discardUntil_LF_CR].
      apply emitToken_continue; [unfold eof; rewrite E; reflexivity |].
      apply slashes_round; assumption.
Qed.

Lemma emitToken_line_comment_witness :
    emitToken true (initial "//x")
    = emitToken true (discardUntil LF_CR (afterSlashes (initial "//x") "x"))
    /\ cur (discardUntil LF_CR (afterSlashes (initial "//x") "x")) = skipLine "x".
Proof.
    apply (emitToken_line_comment true (initial "//x") "x"); reflexivity.
Defined.

  (** C1 (as stated) fails: the Comment token of an annotated comment holds
      the three slashes only, not the text up to the end of the line, which
      is lexed as further tokens. *)
Lemma annotated_comment_payload_is_marker :
    (exists t s', emitToken true (initial "/// note") = Ok (t, s')
       /\ type t = QuakeMapToken.Comment
       /\ data t = "///" /\ data t <> "/// note"
       /\ cur s' = " note")
    /\ lex true "/// note"
       = Some [(QuakeMapToken.Comment, "///"); (QuakeMapToken.String, "note");
               (QuakeMapToken.Eof, EmptyString)].
Proof.
    split; [| reflexivity].
    eexists _, _. split; [reflexivity |].
    repeat split. discriminate.
Qed.

Example lex_plain_comment :
    lex false ("// a comment" ++ String.String LF "{")
    = Some [(QuakeMapToken.Eol, String.String LF EmptyString); (QuakeMapToken.OBrace, "{");
            (QuakeMapToken.Eof, EmptyString)].
Proof. reflexivity. Qed.

  (** C6. With end-of-line tracking disabled, "(0 0 0)" lexes as OParen,
      Integer 0, Integer 0, Integer 0, CParen (then end of file) without any
      Eol token, and "1.5)" lexes as the Decimal "1.5" followed by CParen:
      the number delimiters are the whitespace characters and the closing
      parenthesis, and the integer reader, tried first, gives up on "1.5)"
      before the decimal reader accepts it. *)
Theorem lex_numbers_before_parenthesis :
    lex true "(0 0 0)"
    = Some [(QuakeMapToken.OParenthesis, "("); (QuakeMapToken.Integer, "0");
            (QuakeMapToken.Integer, "0"); (QuakeMapToken.Integer, "0");
            (QuakeMapToken.CParenthesis, ")"); (QuakeMapToken.Eof, EmptyString)]
    /\ lex true "1.5)"
       = Some [(QuakeMapToken.Decimal, "1.5"); (QuakeMapToken.CParenthesis, ")");
               (QuakeMapToken.Eof, EmptyString)]
    /\ NumberDelim = Whitespace ++ ")"
    /\ (forall c, isAnyOf c NumberDelim = isAnyOf c Whitespace || Ascii.eqb c ")")
    /\ readInteger NumberDelim (initial "1.5)") = None
    /\ (exists e, readDecimal NumberDelim (initial "1.5)") = Some e /\ cur e = ")").
Proof.
    repeat split.
    - intros c. unfold NumberDelim, Whitespace. simpl.
      rewrite !orb_false_r, <- !orb_assoc. reflexivity.
    - eexists. split; reflexivity.
Qed.

Lemma lineFeedCase_skip c s : lineFeedCase true c s = Continue (discardWhile Whitespace s).
Proof. reflexivity. Qed.

Lemma round_skipEol_no_Eol s t s' :
  emitToken_round true s = Return t s' -> type t <> QuakeMapToken.Eol.
Proof.
  unfold emitToken_round.
  repeat match goal with
  | |- context [if ?b then _ else _] => destruct b
  | |- context [match advance ?x with _ => _ end] => destruct (advance x)
  | |- context [let '(_, _) := ?p in _] => destruct p
  | |- context [match ?o with Some _ => _ | None => _ end] => destruct o
  end;
  rewrite ?lineFeedCase_skip; unfold whitespaceCase;
  intros H; inversion H; subst; cbn; discriminate.
Qed.

Lemma loop_skipEol_no_Eol n s t s' :
  emitToken_loop n true s = Some (Ok (t, s')) -> type t <> QuakeMapToken.Eol.
Proof.
  revert s. induction n as [| n IH]; intros s; [discriminate |]. simpl.
  destruct (eof s).
  - intros [= <- _]. discriminate.
  - destruct (emitToken_round true s) as [t0 s0 | e | s0] eqn:R.
    + intros [= <- _]. eapply round_skipEol_no_Eol; eauto.
    + discriminate.
    + apply IH.
Qed.

(** X1. While end-of-line tracking is switched off ([setSkipEol(true)]),
    [emitToken] never returns an Eol token, whatever the buffer holds. *)
Theorem emitToken_skipEol_no_Eol s t s' :
  emitToken true s = Ok (t, s') -> type t <> QuakeMapToken.Eol.
Proof.
  unfold emitToken. destruct (emitToken_loop _ _ _) as [r |] eqn:E; [| discriminate].
  intros ->. eapply loop_skipEol_no_Eol; eauto.
Qed.

Lemma emitToken_skipEol_no_Eol_witness :
  exists t s', emitToken true (initial (String.String LF "{")) = Ok (t, s')
    /\ type t <> QuakeMapToken.Eol.
Proof.
  eexists _, _. split; [reflexivity |].
  eapply (emitToken_skipEol_no_Eol (initial (String.String LF "{"))). reflexivity.
Defined.

(** X2. A slash that is not followed by a second slash is consumed without
    a token and without an error: [emitToken] answers as if called right
    behind it. *)
Theorem emitToken_lone_slash skipEol s r :
  cur s = String.String "/" r -> String.prefix "/" r = false ->
  emitToken skipEol s = emitToken skipEol (afterChar s r).
Proof.
  intros E Hp. apply emitToken_continue; [unfold eof; rewrite E; reflexivity |].
  destruct s as [text off ln col esc]. cbn [cur] in E. subst text.
  unfold emitToken_round, afterChar.
  change (curChar (mkState (String.String "/" r) off ln col esc)) with "/"%char.
  change (Ascii.eqb "/" "/") with true. cbv iota.
  rewrite advance_slash. unfold curChar. cbn [cur offset line column].
  destruct r as [| c r1]; [reflexivity |].
  simpl in Hp.
  destruct (Ascii.eqb_spec c "/") as [-> | Hc]; [| reflexivity].
  simpl in Hp. destruct r1; discriminate.
Qed.

Lemma emitToken_lone_slash_witness :
  emitToken true (initial "/ (")
  = emitToken true (afterChar (initial "/ (") " (").
Proof. apply (emitToken_lone_slash true (initial "/ (") " ("); reflexivity. Defined.

(** X3. A semicolon starts a line comment: the text up to the next line
    feed or carriage return is discarded and yields no token. *)
Theorem emitToken_semicolon_comment skipEol s r :
  cur s = String.String ";" r ->
  emitToken skipEol s = emitToken skipEol (discardUntil LF_CR (afterChar s r))
  /\ cur (discardUntil LF_CR (afterChar s r)) = skipLine r.
Proof.
  intros E. split; [| apply cur_discardUntil_LF_CR].
  apply emitToken_continue; [unfold eof; rewrite E; reflexivity |].
  destruct s as [text off ln col esc]. cbn [cur] in E. subst text.
  reflexivity.
Qed.

Lemma emitToken_semicolon_comment_witness :
  emitToken false (initial "; note")
  = emitToken false (discardUntil LF_CR (afterChar (initial "; note") " note"))
  /\ cur (discardUntil LF_CR (afterChar (initial "; note") " note")) = skipLine " note".
Proof. apply (emitToken_semicolon_comment false (initial "; note") " note"); reflexivity. Defined.


(** X4. With end-of-line tracking on, a carriage return followed by a line
    feed yields one Eol token and consumes both characters; a lone line
    feed and a lone carriage return yield one Eol token each.  The token
    text is the first character, and the next line starts at column 1. *)
Theorem emitToken_line_ends s r :
  (cur s = String.String CR (String.String LF r) ->
   exists s', emitToken false s = Ok (eolToken s CR, s')
     /\ cur s' = r /\ offset s' = offset s + 2 /\ line s' = S (line s) /\ column s' = 1)
  /\ (cur s = String.String LF r ->
      exists s', emitToken false s = Ok (eolToken s LF, s')
        /\ cur s' = r /\ offset s' = offset s + 1 /\ line s' = S (line s) /\ column s' = 1)
  /\ (cur s = String.String CR r -> String.prefix (String.String LF EmptyString) r = false ->
      exists s', emitToken false s = Ok (eolToken s CR, s')
        /\ cur s' = r /\ offset s' = offset s + 1 /\ line s' = S (line s) /\ column s' = 1).
Proof.
  destruct s as [text off ln col esc]. cbn [cur]. repeat split.
  - intros ->. eexists. split; [reflexivity |]. cbn. repeat split; lia.
  - intros ->. eexists. split; [destruct r; reflexivity |]. cbn. repeat split; lia.
  - intros -> Hp. destruct r as [| c r'].
    + eexists. split; [reflexivity |]. cbn. repeat split; lia.
    + simpl in Hp.
      destruct (Ascii.eqb_spec c LF) as [-> | Hc]; [destruct r'; discriminate |].
      apply Ascii.eqb_neq in Hc.
      eexists. split.
      * unfold emitToken, emitToken_loop. cbn [cur String.length eof].
        unfold emitToken_round, curChar, lookAhead, lineFeedCase, advance, advance_from.
        cbn [cur String.get negb]. rewrite Hc. reflexivity.
      * cbn. rewrite ?Hc. cbn. repeat split; lia.
Qed.

Lemma emitToken_line_ends_witness :
  exists s', emitToken false (initial (String.String LF "{")) = Ok (eolToken (initial (String.String LF "{")) LF, s')
        /\ cur s' = "{" /\ offset s' = 0 + 1 /\ line s' = 2 /\ column s' = 1.
Proof.
  apply (proj1 (proj2 (emitToken_line_ends (initial (String.String LF "{")) "{"))).
  reflexivity.
Defined.

Lemma readDigits_length s : String.length (cur (readDigits s)) <= String.length (cur s).
Proof. apply scan_length. reflexivity. Qed.

Lemma eof_false_cur s : eof s = false -> exists c rest, cur s = String.String c rest.
Proof. unfold eof. destruct (cur s); [discriminate | eauto]. Qed.

Lemma advance_ok s : eof s = false -> exists s1, advance s = Ok s1.
Proof.
  intros He. destruct (eof_false_cur s He) as (c & rest & E).
  unfold advance. rewrite E. eauto.
Qed.

Lemma readInteger_shorter delims s e :
  eof s = false -> readInteger delims s = Some e ->
  String.length (cur e) < String.length (cur s).
Proof.
  intros He. unfold readInteger.
  destruct (negb _) eqn:Hc; [discriminate |].
  apply negb_false_iff in Hc.
  destruct ((curChar s =? "+")%char || (curChar s =? "-")%char) eqn:Hs.
  - destruct (advance s) as [s1 |] eqn:A; [| discriminate].
    apply advance_length in A.
    destruct (atDelim _ _); [| discriminate]. intros [= <-].
    pose proof (readDigits_length s1). lia.
  - simpl in Hc.
    destruct (atDelim _ _); [| discriminate]. intros [= <-].
    destruct (eof_false_cur s He) as (c & rest & E).
    unfold readDigits. eapply scan_progress; [exact E |].
    unfold curChar in Hc. rewrite E in Hc. rewrite Hc. reflexivity.
Qed.

Lemma readDecimal_shorter delims s e :
  eof s = false -> readDecimal delims s = Some e ->
  String.length (cur e) < String.length (cur s).
Proof.
  intros He. unfold readDecimal.
  destruct (negb _) eqn:Hc; [discriminate |]. clear Hc.
  destruct (advance_ok s He) as [sa A]. pose proof (advance_length _ _ A) as La.
  assert (forall s1 s2,
    (if (curChar s1 =? "e")%char then
       bind (advance s1) (fun s3 =>
         let d := curChar s3 in
         if (d =? "+")%char || (d =? "-")%char || isDigit d
         then bind (advance s3) (fun s4 => Ok (readDigits s4)) else Ok s3)
     else Ok s1) = Ok s2 ->
    String.length (cur s2) <= String.length (cur s1)) as Hexp.
  { intros s1 s2. destruct (curChar s1 =? "e")%char; [| intros [= <-]; lia].
    destruct (advance s1) as [s3 |] eqn:A3; [| discriminate]. cbn [bind].
    apply advance_length in A3.
    destruct (_ || _).
    - destruct (advance s3) as [s4 |] eqn:A4; [| discriminate]. cbn [bind].
      apply advance_length in A4. intros [= <-].
      pose proof (readDigits_length s4). lia.
    - intros [= <-]. lia. }
  destruct (negb (curChar s =? ".")%char) eqn:Hdot.
  - rewrite A. cbn [bind].
    pose proof (readDigits_length sa) as L1.
    set (s1 := readDigits sa) in *.
    destruct (curChar s1 =? ".")%char.
    + destruct (advance s1) as [s2 |] eqn:A2; [| discriminate]. cbn [bind].
      apply advance_length in A2. pose proof (readDigits_length s2) as L2.
      destruct (if (curChar (readDigits s2) =? "e")%char then _ else _) as [s3 |] eqn:E3;
        [| discriminate].
      apply Hexp in E3.
      destruct (atDelim _ _); [| discriminate]. intros [= <-]. lia.
    + destruct (if (curChar s1 =? "e")%char then _ else _) as [s3 |] eqn:E3;
        [| discriminate].
      apply Hexp in E3.
      destruct (atDelim _ _); [| discriminate]. intros [= <-]. lia.
  - apply negb_false_iff in Hdot. rewrite Hdot. rewrite A. cbn [bind].
    pose proof (readDigits_length sa) as L1.
    destruct (if (curChar (readDigits sa) =? "e")%char then _ else _) as [s3 |] eqn:E3;
      [| discriminate].
    apply Hexp in E3.
    destruct (atDelim _ _); [| discriminate]. intros [= <-]. lia.
Qed.

Lemma readUntil_shorter delims s e :
  eof s = false -> readUntil delims s = Some e ->
  String.length (cur e) < String.length (cur s).
Proof.
  intros He. unfold readUntil.
  destruct (advance_ok s He) as [sa A]. rewrite A. intros [= <-].
  apply advance_length in A. pose proof (discardUntil_length delims sa). lia.
Qed.

Lemma quoted_end_length delim hack text s :
  cur s = text ->
  String.length (cur (quoted_end delim hack text s)) <= String.length text.
Proof.
  revert s. induction text as [| c rest IH]; intros s E; cbn [quoted_end].
  - rewrite E. simpl. lia.
  - destruct (_ && _); [rewrite E; simpl; lia |].
    destruct (_ && _); [cbn [cur]; rewrite E; simpl; lia |].
    etransitivity; [apply IH, cur_advance_from | simpl; lia].
Qed.

Lemma readQuotedString_length delim hack s e s2 :
  readQuotedString delim hack s = (e, s2) ->
  String.length (cur s2) <= String.length (cur s).
Proof.
  unfold readQuotedString. intros [= <- <-].
  pose proof (quoted_end_length delim hack (cur s) s eq_refl) as L.
  destruct (advance _) as [s' |] eqn:A; [| exact L].
  apply advance_length in A. lia.
Qed.

Lemma lineFeedCase_return skipEol c s t s' :
  lineFeedCase skipEol c s = Return t s' ->
  type t = QuakeMapToken.Eol /\ String.length (cur s) = S (String.length (cur s')).
Proof.
  unfold lineFeedCase, whitespaceCase. destruct (negb skipEol); [| discriminate].
  destruct (advance s) as [s1 |] eqn:A; [| discriminate].
  intros [= <- <-]. split; [reflexivity | now apply advance_length].
Qed.

(** A round that returns a token has consumed at least one character, and
    the token is not the end-of-file token. *)
Lemma round_return_shorter skipEol s t s' :
  eof s = false -> emitToken_round skipEol s = Return t s' ->
  String.length (cur s') < String.length (cur s) /\ type t <> QuakeMapToken.Eof.
Proof.
  intros He. unfold emitToken_round.
  destruct (advance_ok s He) as [sa A]. pose proof (advance_length _ _ A) as La.
  rewrite A.
  destruct (curChar s =? "/")%char.
  { destruct (curChar sa =? "/")%char; [| discriminate].
    destruct (advance sa) as [s2 |] eqn:A2; [| discriminate].
    apply advance_length in A2.
    destruct (_ && _); [| discriminate].
    destruct (advance s2) as [s3 |] eqn:A3; [| discriminate].
    apply advance_length in A3. intros [= <- <-]. split; [lia | discriminate]. }
  destruct (curChar s =? ";")%char; [discriminate |].
  do 6 (match goal with
        | |- context [if ?b then Return _ _ else _] =>
            destruct b; [intros [= <- <-]; split; [lia | discriminate] |]
        end).
  destruct (curChar s =? DQUOTE)%char.
  { destruct (readQuotedString _ _ sa) as [e s2] eqn:Q.
    apply readQuotedString_length in Q.
    intros [= <- <-]. split; [lia | discriminate]. }
  destruct (curChar s =? CR)%char.
  { destruct (lookAhead 1 s =? LF)%char.
    - intros H. apply lineFeedCase_return in H as [Ht Hl]. split; [lia | congruence].
    - intros H. apply lineFeedCase_return in H as [Ht Hl]. split; [lia | congruence]. }
  destruct (curChar s =? LF)%char.
  { intros H. apply lineFeedCase_return in H as [Ht Hl]. split; [lia | congruence]. }
  destruct (_ || _); [discriminate |].
  destruct (readInteger _ _) as [e |] eqn:RI.
  { intros [= <- <-]. split; [eapply readInteger_shorter; eauto | discriminate]. }
  destruct (readDecimal _ _) as [e |] eqn:RD.
  { intros [= <- <-]. split; [eapply readDecimal_shorter; eauto | discriminate]. }
  destruct (readUntil _ _) as [e |] eqn:RU; [| discriminate].
  intros [= <- <-]. split; [eapply readUntil_shorter; eauto | discriminate].
Qed.

Lemma loop_result skipEol n s t s' :
  emitToken_loop n skipEol s = Some (Ok (t, s')) ->
  (type t = QuakeMapToken.Eof /\ eof s' = true)
  \/ (type t <> QuakeMapToken.Eof
      /\ String.length (cur s') < String.length (cur s)).
Proof.
  revert s. induction n as [| n IH]; intros s; [discriminate |]. simpl.
  destruct (eof s) eqn:He.
  - intros [= <- <-]. left. split; [reflexivity | exact He].
  - destruct (emitToken_round skipEol s) as [t0 s0 | e | s0] eqn:R.
    + intros [= <- <-]. right.
      destruct (round_return_shorter _ _ _ _ He R). split; assumption.
    + discriminate.
    + intros H. pose proof (round_continue_shorter _ _ _ He R).
      destruct (IH _ H) as [? | [? ?]]; [left; assumption | right; split; [assumption | lia]].
Qed.

Lemma emitToken_result skipEol s t s' :
  emitToken skipEol s = Ok (t, s') ->
  (type t = QuakeMapToken.Eof /\ eof s' = true)
  \/ (type t <> QuakeMapToken.Eof
      /\ String.length (cur s') < String.length (cur s)).
Proof.
  unfold emitToken. destruct (emitToken_loop _ _ _) as [r |] eqn:E; [| discriminate].
  intros ->. eapply loop_result; eauto.
Qed.


Lemma tokens_from_shape skipEol n s ts :
  String.length (cur s) < n -> tokens_from n skipEol s = Ok ts ->
  exists (pre : list Token) t, ts = (pre ++ [t])%list /\ isEof t = true /\ forallb (fun x => negb (isEof x)) pre = true.
Proof.
  revert s ts. induction n as [| n IH]; intros s ts Hn; [lia |]. cbn [tokens_from].
  destruct (emitToken skipEol s) as [[t s'] | e] eqn:E; [| intros [=]].
  destruct (emitToken_result _ _ _ _ E) as [[Ht He] | [Ht Hl]].
  - rewrite Ht. intros [= <-]. exists [], t. repeat split. unfold isEof. now rewrite Ht.
  - destruct (tokens_from n skipEol s') as [ts' |] eqn:T.
    2:{ destruct (type t); intros [=]. congruence. }
    destruct (IH s' ts' ltac:(lia) T) as (pre & t' & -> & Hl' & Hp).
    intros H.
    assert (ts = t :: (pre ++ [t'])%list) as ->.
    { destruct (type t); try congruence; cbn [bind] in H; congruence. }
    exists (t :: pre), t'. repeat split; [assumption |].
    cbn [forallb]. rewrite Hp. unfold isEof.
    destruct (type t); try reflexivity. congruence.
Qed.



End TokFacts.

(** ** Patch grid resizing *)

Module PatchResizeFacts.
Import PatchCount PatchResize.

Lemma mapM_seq_Some {B} n (g : nat -> option B) :
  (forall i, (i < n)%nat -> is_Some (g i)) ->
  exists l, mapM g (seq 0 n) = Some l /\ length l = n
            /\ forall i, (i < n)%nat -> l !! i = g i.
Proof.
  intros Hg.
  assert (is_Some (mapM g (seq 0 n))) as [l Hl].
  { apply mapM_is_Some_2, Forall_forall. intros i Hi.
    apply elem_of_seq in Hi. apply Hg. lia. }
  exists l. split; [exact Hl |].
  apply mapM_Some_1 in Hl.
  pose proof (Forall2_length _ _ _ Hl) as Hlen. rewrite length_seq in Hlen.
  split; [lia |]. intros i Hi.
  destruct (Forall2_lookup_l _ _ _ i i Hl) as (y & Hy & Hgy).
  { apply lookup_seq. lia. }
  congruence.
Qed.

(** When every cell can be read, the grid loops deliver one element per
    cell, in row-major order. *)
Lemma grid_of_Some {A} rows cols (f : nat -> nat -> option A) :
  (forall r c, (r < rows)%nat -> (c < cols)%nat -> is_Some (f r c)) ->
  exists l, grid_of rows cols f = Some l /\ length l = (rows * cols)%nat
            /\ forall r c, (r < rows)%nat -> (c < cols)%nat ->
                           l !! (r * cols + c)%nat = f r c.
Proof.
  intros Hf. unfold grid_of.
  destruct (mapM_seq_Some rows (fun r => mapM (f r) (seq 0 cols)))
    as (ls & Hls & Hlen & Hrow).
  { intros r Hr. destruct (mapM_seq_Some cols (f r)) as (l & Hl & _); [auto |].
    rewrite Hl. eauto. }
  rewrite Hls. cbn. eexists. split; [reflexivity |].
  assert (Hall : Forall (fun l => length l = cols) ls).
  { apply Forall_lookup. intros r l Hl.
    assert (r < rows)%nat by (apply lookup_lt_Some in Hl; lia).
    rewrite Hrow in Hl by assumption.
    destruct (mapM_seq_Some cols (f r)) as (l' & Hl' & Hlen' & _); [auto |].
    congruence. }
  split.
  - rewrite length_join, (sum_list_fmap_same cols) by assumption. lia.
  - intros r c Hr Hc.
    destruct (mapM_seq_Some cols (f r)) as (l' & Hl' & Hlen' & Hcell); [auto |].
    assert (ls !! r = Some l') by (rewrite Hrow by assumption; exact Hl').
    destruct (Hf r c Hr Hc) as [x Hx]. rewrite Hx.
    apply (join_lookup_Some_same_length' cols); [assumption | assumption |].
    exists l'. split; [assumption |]. rewrite Hcell by assumption. exact Hx.
Qed.

(** Inside a grid of [sr * sc] elements the index arithmetic of the resize
    loops does not wrap. *)
Lemma sourceIndex_small sr sc row col :
  0 < sr -> 0 < sc -> sr * sc < 2 ^ size_bits ->
  Z.to_nat (sourceIndex sr sc row col)
  = (Nat.min row (Z.to_nat sr - 1) * Z.to_nat sc + Nat.min col (Z.to_nat sc - 1))%nat
  /\ (Z.to_nat (sourceIndex sr sc row col) < Z.to_nat (sr * sc))%nat.
Proof.
  intros Hr Hc Hb. unfold sourceIndex.
  assert (sr < 2 ^ size_bits) by nia.
  assert (sc < 2 ^ size_bits) by nia.
  rewrite (size_wrap_small (sr - 1)), (size_wrap_small (sc - 1)) by lia.
  set (a := Z.min (Z.of_nat row) (sr - 1)).
  set (b := Z.min (Z.of_nat col) (sc - 1)).
  assert (0 <= a <= sr - 1) by lia.
  assert (0 <= b <= sc - 1) by lia.
  assert (0 <= a * sc <= (sr - 1) * sc) by nia.
  rewrite (size_wrap_small (a * sc)) by nia.
  rewrite size_wrap_small by nia.
  split; [| nia].
  assert (Nat.min row (Z.to_nat sr - 1) = Z.to_nat a) as -> by lia.
  assert (Nat.min col (Z.to_nat sc - 1) = Z.to_nat b) as -> by lia.
  rewrite Z2Nat.inj_add, Z2Nat.inj_mul by lia. reflexivity.
Qed.

(** X6. Resizing a grid of [sr] x [sc] control points (both positive) to
    [tr] x [tc] reads inside the source only, returns exactly [tr * tc]
    points, and the point at target row [row] and column [col] is the
    source point at row [min row (sr - 1)] and column [min col (sc - 1)]:
    cells beyond the source repeat its last row or column. *)
Theorem resizePatchControlPoints_cells {A} (zero : A) sr sc tr tc (cps : list A) :
  0 < sr -> 0 < sc -> 0 <= tr -> 0 <= tc ->
  sr * sc < 2 ^ size_bits -> Z.of_nat (length cps) = sr * sc ->
  exists l, resizePatchControlPoints zero sr sc tr tc cps = Some l
    /\ Z.of_nat (length l) = tr * tc
    /\ forall row col, (row < Z.to_nat tr)%nat -> (col < Z.to_nat tc)%nat ->
         l !! (row * Z.to_nat tc + col)%nat
         = cps !! (Nat.min row (Z.to_nat sr - 1) * Z.to_nat sc
                   + Nat.min col (Z.to_nat sc - 1))%nat
         /\ is_Some (l !! (row * Z.to_nat tc + col)%nat).
Proof.
  intros Hsr Hsc Htr Htc Hb Hlen. unfold resizePatchControlPoints.
  destruct (Z.eqb_spec sr 0); [lia |]. destruct (Z.eqb_spec sc 0); [lia |].
  cbn [orb].
  assert (Hin : forall row col,
    is_Some (cps !! Z.to_nat (sourceIndex sr sc row col))).
  { intros row col. apply lookup_lt_is_Some.
    destruct (sourceIndex_small sr sc row col Hsr Hsc Hb) as [_ Hlt]. lia. }
  destruct (grid_of_Some (Z.to_nat tr) (Z.to_nat tc)
              (fun row col => cps !! Z.to_nat (sourceIndex sr sc row col)))
    as (l & Hl & Hlen' & Hcell).
  { intros; apply Hin. }
  exists l. split; [exact Hl |]. split; [nia |].
  intros row col Hr Hc. rewrite (Hcell row col Hr Hc).
  destruct (sourceIndex_small sr sc row col Hsr Hsc Hb) as [-> _].
  split; [reflexivity |].
  destruct (sourceIndex_small sr sc row col Hsr Hsc Hb) as [<- _]. apply Hin.
Qed.

Lemma resizePatchControlPoints_cells_witness :
  exists l, resizePatchControlPoints 0 1 2 3 3 [10; 20] = Some l
    /\ Z.of_nat (length l) = 3 * 3
    /\ forall row col, (row < Z.to_nat 3)%nat -> (col < Z.to_nat 3)%nat ->
         l !! (row * Z.to_nat 3 + col)%nat
         = [10; 20] !! (Nat.min row (Z.to_nat 1 - 1) * Z.to_nat 2
                        + Nat.min col (Z.to_nat 2 - 1))%nat
         /\ is_Some (l !! (row * Z.to_nat 3 + col)%nat).
Proof.
  apply (resizePatchControlPoints_cells 0 1 2 3 3 [10; 20]);
    unfold size_bits; cbn; lia.
Defined.

Example resize_1x2_to_3x3 :
  resizePatchControlPoints 0 1 2 3 3 [10; 20]
  = Some [10; 20; 20; 10; 20; 20; 10; 20; 20].
Proof. reflexivity. Qed.

(** X7. Resizing is the identity when the target dimensions equal the
    source dimensions (also for an empty grid). *)
Theorem resizePatchControlPoints_same {A} (zero : A) sr sc (cps : list A) :
  0 <= sr -> 0 <= sc -> sr * sc < 2 ^ size_bits ->
  Z.of_nat (length cps) = sr * sc ->
  resizePatchControlPoints zero sr sc sr sc cps = Some cps.
Proof.
  intros Hsr Hsc Hb Hlen.
  destruct (Z.eq_dec sr 0) as [-> | Hr0].
  { unfold resizePatchControlPoints. cbn.
    destruct cps; [reflexivity | cbn in Hlen; lia]. }
  destruct (Z.eq_dec sc 0) as [-> | Hc0].
  { unfold resizePatchControlPoints. rewrite Z.eqb_refl, orb_true_r.
    rewrite Z.mul_0_r in *. destruct cps; [reflexivity | cbn in Hlen; lia]. }
  destruct (resizePatchControlPoints_cells zero sr sc sr sc cps)
    as (l & -> & Hl & Hcell); try lia.
  f_equal. apply list_eq_same_length with (length cps); [reflexivity | lia |].
  intros i x y Hi Hx Hy.
  set (n := Z.to_nat sc). assert (0 < n)%nat by lia.
  assert (i = (i / n * n + i mod n)%nat) as Hdiv.
  { pose proof (Nat.div_mod_eq i n). lia. }
  assert (i mod n < n)%nat by (apply Nat.mod_upper_bound; lia).
  assert (i / n < Z.to_nat sr)%nat.
  { apply Nat.Div0.div_lt_upper_bound. subst n. nia. }
  destruct (Hcell (i / n)%nat (i mod n)%nat) as [He _]; [lia | lia |].
  fold n in He.
  rewrite <- Hdiv in He.
  rewrite !Nat.min_l in He by lia. rewrite <- Hdiv in He. congruence.
Qed.

Lemma resizePatchControlPoints_same_witness :
  resizePatchControlPoints 0 1 2 1 2 [10; 20] = Some [10; 20].
Proof.
  apply (resizePatchControlPoints_same 0 1 2 [10; 20]); unfold size_bits; cbn; lia.
Defined.


(** X8. The control normals are resized in lockstep with the control
    points: an empty normal list stays empty, and otherwise the normal of a
    target cell is the normal of the same clamped source cell. *)
Theorem resizePatchControlNormals_cells {A} sr sc tr tc (normals : list A) :
  0 < sr -> 0 < sc -> 0 <= tr -> 0 <= tc ->
  sr * sc < 2 ^ size_bits ->
  resizePatchControlNormals sr sc tr tc [] = Some (@nil A)
  /\ (Z.of_nat (length normals) = sr * sc ->
      exists l, resizePatchControlNormals sr sc tr tc normals = Some l
        /\ Z.of_nat (length l) = tr * tc
        /\ forall row col, (row < Z.to_nat tr)%nat -> (col < Z.to_nat tc)%nat ->
             l !! (row * Z.to_nat tc + col)%nat
             = normals !! (Nat.min row (Z.to_nat sr - 1) * Z.to_nat sc
                           + Nat.min col (Z.to_nat sc - 1))%nat).
Proof.
  intros Hsr Hsc Htr Htc Hb. split.
  { unfold resizePatchControlNormals. cbn. now rewrite orb_true_r. }
  intros Hlen. unfold resizePatchControlNormals.
  destruct (Z.eqb_spec sr 0); [lia |]. destruct (Z.eqb_spec sc 0); [lia |].
  destruct (Nat.eqb_spec (length normals) 0); [nia |]. cbn [orb].
  assert (Hin : forall row col,
    is_Some (normals !! Z.to_nat (sourceIndex sr sc row col))).
  { intros row col. apply lookup_lt_is_Some.
    destruct (sourceIndex_small sr sc row col Hsr Hsc Hb) as [_ Hlt]. lia. }
  destruct (grid_of_Some (Z.to_nat tr) (Z.to_nat tc)
              (fun row col => normals !! Z.to_nat (sourceIndex sr sc row col)))
    as (l & Hl & Hlen' & Hcell).
  { intros; apply Hin. }
  exists l. split; [exact Hl |]. split; [nia |].
  intros row col Hr Hc. rewrite (Hcell row col Hr Hc).
  destruct (sourceIndex_small sr sc row col Hsr Hsc Hb) as [-> _]. reflexivity.
Qed.

Lemma resizePatchControlNormals_cells_witness :
  resizePatchControlNormals 1 2 3 3 [] = Some (@nil Z)
  /\ (Z.of_nat (length [10; 20]) = 1 * 2 ->
      exists l, resizePatchControlNormals 1 2 3 3 [10; 20] = Some l
        /\ Z.of_nat (length l) = 3 * 3
        /\ forall row col, (row < Z.to_nat 3)%nat -> (col < Z.to_nat 3)%nat ->
             l !! (row * Z.to_nat 3 + col)%nat
             = [10; 20] !! (Nat.min row (Z.to_nat 1 - 1) * Z.to_nat 2
                            + Nat.min col (Z.to_nat 2 - 1))%nat).
Proof.
  apply (resizePatchControlNormals_cells 1 2 3 3 [10; 20]); unfold size_bits; cbn; lia.
Defined.

Lemma readPatchCount_range countInt location what status :
  - 2 ^ 31 <= countInt < 2 ^ 31 ->
  1 <= fst (readPatchCount countInt location what status) < 2 ^ 31.
Proof.
  intros H. unfold readPatchCount.
  destruct (Z.leb_spec countInt 0); cbn [fst]; lia.
Qed.

Lemma sanitize_value count label location status :
  1 <= count < 2 ^ 31 ->
  let v := fst (sanitizePatchCount count label location status) in
  2 < v /\ v mod 2 = 1 /\ count <= v <= count + 2.
Proof.
  intros Hc v. subst v. unfold sanitizePatchCount.
  destruct (Z.ltb_spec count 3); [cbn [fst]; repeat split; lia || reflexivity |].
  destruct (Z.eqb_spec (count mod 2) 0) as [He | Ho]; cbn [fst].
  - rewrite size_wrap_small by (unfold size_bits; lia).
    repeat split; try lia.
    rewrite Z.add_mod by lia. rewrite He. reflexivity.
  - pose proof (Z.mod_pos_bound count 2 ltac:(lia)). repeat split; lia.
Qed.

(** X9. Whatever positive counts a patch declares, the grid that the end
    of [parsePatch] hands on satisfies the contract of the [BezierPatch]
    constructor: both counts are odd and greater than 2, there are
    rows x columns control points, and the control normals are either
    absent or as many. *)
Theorem finishPatch_contract {P N} (zero : P) (isPatchDef3 : bool) rowCount columnCount
    rowLocation columnLocation (cps : list P) (normals : list N) status :
  1 <= rowCount < 2 ^ 31 -> 1 <= columnCount < 2 ^ 31 ->
  Z.of_nat (length cps) = rowCount * columnCount ->
  (if isPatchDef3 then Z.of_nat (length normals) = rowCount * columnCount
   else normals = @nil N) ->
  exists g status', finishPatch zero isPatchDef3 rowCount columnCount
                      rowLocation columnLocation cps normals status
                    = Some (g, status')
    /\ patch_contract g.
Proof.
  intros Hr Hc Hlen Hn. unfold finishPatch.
  pose proof (sanitize_value rowCount "height" rowLocation status Hr) as Vr.
  destruct (sanitizePatchCount rowCount "height" rowLocation status)
    as [vr st1]. cbn [fst] in Vr.
  pose proof (sanitize_value columnCount "width" columnLocation st1 Hc) as Vc.
  destruct (sanitizePatchCount columnCount "width" columnLocation st1)
    as [vc st2]. cbn [fst] in Vc.
  assert (rowCount * columnCount < 2 ^ size_bits) by (unfold size_bits; nia).
  destruct (negb (vr =? rowCount) || negb (vc =? columnCount)) eqn:Hch.
  - destruct (resizePatchControlPoints_cells zero rowCount columnCount vr vc cps)
      as (l & -> & Hl & _); try lia.
    destruct isPatchDef3.
    + destruct (resizePatchControlNormals_cells rowCount columnCount vr vc normals)
        as [_ Hnorm]; try lia.
      destruct (Hnorm Hn) as (nl & -> & Hnl & _).
      eexists _, _. split; [reflexivity |].
      unfold patch_contract. cbn. repeat split; try lia; try (right; exact Hnl).
    + subst normals. eexists _, _. split; [reflexivity |].
      unfold patch_contract. cbn. repeat split; try lia; try (left; reflexivity).
  - apply orb_false_iff in Hch as [H1 H2].
    apply negb_false_iff, Z.eqb_eq in H1. apply negb_false_iff, Z.eqb_eq in H2.
    subst vr vc. eexists _, _. split; [reflexivity |].
    unfold patch_contract. cbn. repeat split; try lia;
      try (destruct isPatchDef3; [right; exact Hn | left; exact Hn]).
Qed.

Lemma finishPatch_contract_witness :
  exists g status',
    finishPatch (P := Z) (N := Z) 0 false 1 2 (Build_FileLocation 1 1)
      (Build_FileLocation 1 3) [10; 20] [] []
    = Some (g, status')
    /\ patch_contract g.
Proof.
  apply (finishPatch_contract 0 false 1 2); cbn; try lia. reflexivity.
Defined.

End PatchResizeFacts.

(** ** The hotspot rect parser *)

Module HotspotFacts.
Import Hotspot HotspotAux.
Import Tok (TAB, LF, CR, DQUOTE, isAnyOf, isDigit).
Local Open Scope string_scope.
Local Open Scope nat_scope.

Lemma tolower_idem c : tolower (tolower c) = tolower c.
Proof.
  destruct c as [b0 b1 b2 b3 b4 b5 b6 b7].
  destruct b0, b1, b2, b3, b4, b5, b6, b7; reflexivity.
Qed.

Lemma toLower_idem s : toLower (toLower s) = toLower s.
Proof. induction s as [| c s IH]; cbn; [reflexivity |]. now rewrite tolower_idem, IH. Qed.

(** X10. The active texture name is the innermost scope that is neither
    anonymous nor a rectangles keyword: opening such a scope makes it the
    active name, opening an anonymous or "rectangles" scope leaves the
    active name as it was, no scope at all gives no name, and a name that
    is found is never empty and never a rectangles keyword. *)
Theorem currentTextureName_spec (stack : list string) (name : string) :
  currentTextureName [] = None
  /\ (isTextureScope name = true ->
      currentTextureName (stack ++ [name]) = Some name)
  /\ (isTextureScope name = false ->
      currentTextureName (stack ++ [name]) = currentTextureName stack)
  /\ (currentTextureName stack = Some name ->
      name <> EmptyString /\ isRectanglesKeyword name = false /\ In name stack).
Proof.
  unfold currentTextureName, isTextureScope. repeat split.
  - intros H. rewrite rev_app_distr. cbn. now rewrite H.
  - intros H. rewrite rev_app_distr. cbn. now rewrite H.
  - apply find_some in H as [_ H]. apply andb_true_iff in H as [H _].
    intros ->. discriminate.
  - apply find_some in H as [_ H]. apply andb_true_iff in H as [_ H].
    now apply negb_true_iff in H.
  - apply find_some in H as [H _]. now apply in_rev.
Qed.

Lemma currentTextureName_spec_witness :
  currentTextureName (["foo"] ++ ["Rectangles"]) = currentTextureName ["foo"].
Proof.
  apply (proj1 (proj2 (proj2 (currentTextureName_spec ["foo"] "Rectangles")))).
  reflexivity.
Defined.

(** X11. Keywords are matched without regard to case: the rectangles
    keyword and the tile flags are recognised in any mix of upper and
    lower case. *)
Theorem keywords_ignore_case (value : string) (tokens : list string) (flag : string) :
  isRectanglesKeyword (toLower value) = isRectanglesKeyword value
  /\ hasToken (map toLower tokens) flag = hasToken tokens flag
  /\ isRectanglesKeyword "RECTANGLES" = true
  /\ hasToken ["0"; "TileU"] "tileu" = true.
Proof.
  repeat split.
  - unfold isRectanglesKeyword. now rewrite toLower_idem.
  - unfold hasToken. induction tokens as [| t ts IH]; cbn; [reflexivity |].
    now rewrite toLower_idem, IH.
Qed.

Lemma substring_0_S c r n :
  substring 0 (S n) (String.String c r) = String.String c (substring 0 n r).
Proof. reflexivity. Qed.

Lemma substring_S_cons c r n m :
  substring (S n) m (String.String c r) = substring n m r.
Proof. reflexivity. Qed.

Lemma find_last_rtrim s :
  match find_last_not_of blanks s with
  | Some e => substring 0 (e + 1) s = rtrim s /\ rtrim s <> EmptyString
              /\ e < String.length s
  | None => rtrim s = EmptyString
  end.
Proof.
  induction s as [| c r IH]; cbn [find_last_not_of rtrim]; [reflexivity |].
  destruct (find_last_not_of blanks r) as [i |].
  - destruct IH as (IH & Hne & Hlt). cbn [Nat.add].
    rewrite substring_0_S. rewrite IH.
    destruct (rtrim r); [congruence |].
    repeat split; [discriminate | cbn; lia].
  - rewrite IH. fold (isBlank c). destruct (isBlank c); [reflexivity |].
    repeat split; [| discriminate | cbn; lia].
    destruct r; reflexivity.
Qed.

Lemma find_first_ltrim s :
  match find_first_not_of blanks s with
  | Some start =>
      (forall n, substring start n s = substring 0 n (ltrim s))
      /\ (exists c r, ltrim s = String.String c r /\ isBlank c = false)
      /\ match find_last_not_of blanks s with
         | Some e => find_last_not_of blanks (ltrim s) = Some (e - start) /\ start <= e
         | None => False
         end
  | None => ltrim s = EmptyString /\ find_last_not_of blanks s = None
  end.
Proof.
  induction s as [| c r IH]; cbn [find_first_not_of find_last_not_of ltrim str_drop_while];
    [split; reflexivity |].
  fold (isBlank c). destruct (isBlank c) eqn:Hc.
  - destruct (find_first_not_of blanks r) as [st |]; cbn [option_map].
    + destruct IH as (Hs & Hex & Hl). fold (ltrim r). split; [| split].
      * intros n. rewrite substring_S_cons. apply Hs.
      * exact Hex.
      * destruct (find_last_not_of blanks r) as [e |]; [| contradiction].
        destruct Hl as [Hl Hle]. split; [| lia].
        exact Hl.
    + destruct IH as [IH1 IH2]. rewrite IH2. split; [exact IH1 | reflexivity].
  - split; [| split].
    + reflexivity.
    + eauto.
    + clear IH. destruct (find_last_not_of blanks r) as [e |] eqn:E.
      * split; [| lia]. cbn [find_last_not_of]. rewrite E, Nat.sub_0_r. reflexivity.
      * split; [| lia].
        cbn [find_last_not_of]. rewrite E. fold (isBlank c). rewrite Hc. reflexivity.
Qed.

Lemma trim_rtrim_ltrim s : trim s = rtrim (ltrim s).
Proof.
  unfold trim. pose proof (find_first_ltrim s) as H.
  destruct (find_first_not_of blanks s) as [start |].
  - destruct H as (Hs & _ & Hl).
    destruct (find_last_not_of blanks s) as [e |]; [| contradiction].
    destruct Hl as [Hl Hle]. rewrite Hs.
    pose proof (find_last_rtrim (ltrim s)) as Hr. rewrite Hl in Hr.
    apply Hr.
  - destruct H as [-> _]. reflexivity.
Qed.

Lemma rtrim_head c r :
  isBlank c = false -> exists r', rtrim (String.String c r) = String.String c r'.
Proof.
  intros Hc. cbn [rtrim]. destruct (rtrim r); [rewrite Hc |]; eauto.
Qed.

Lemma rtrim_last y :
  rtrim y = EmptyString
  \/ find_last_not_of blanks (rtrim y) = Some (String.length (rtrim y) - 1).
Proof.
  induction y as [| c r IH]; [left; reflexivity |]. cbn [rtrim].
  destruct (rtrim r) as [| c' r'] eqn:E.
  - destruct (isBlank c) eqn:Hc; [left; reflexivity | right].
    cbn [find_last_not_of]. fold (isBlank c). rewrite Hc. reflexivity.
  - right. destruct IH as [IH | IH]; [discriminate |].
    change (find_last_not_of blanks (String.String c (String.String c' r')))
      with (match find_last_not_of blanks (String.String c' r') with
            | Some i => Some (S i)
            | None => if isAnyOf c blanks then None else Some 0
            end).
    rewrite IH. cbn [String.length]. f_equal. lia.
Qed.

Lemma rtrim_idem y : rtrim (rtrim y) = rtrim y.
Proof.
  induction y as [| c r IH]; [reflexivity |]. cbn [rtrim].
  destruct (rtrim r) as [| c' r'] eqn:E.
  - destruct (isBlank c) eqn:Hc; [reflexivity |]. cbn [rtrim]. now rewrite Hc.
  - change (rtrim (String.String c (String.String c' r')))
      with (match rtrim (String.String c' r') with
            | EmptyString => if isBlank c then EmptyString else String.String c EmptyString
            | x => String.String c x
            end).
    rewrite IH. reflexivity.
Qed.

Lemma ltrim_head s :
  ltrim s = EmptyString \/ exists c r, ltrim s = String.String c r /\ isBlank c = false.
Proof.
  induction s as [| c r IH]; [left; reflexivity |].
  unfold ltrim. cbn [str_drop_while]. destruct (isBlank c) eqn:Hc; [exact IH |].
  right. eauto.
Qed.


Lemma get_length_None w p : String.length w <= p -> String.get p w = None.
Proof.
  revert p. induction w as [| c w IH]; intros p Hp; [destruct p; reflexivity |].
  destruct p; cbn in *; [lia |]. apply IH. lia.
Qed.

Lemma get_length_Some w p : p < String.length w -> String.get p w <> None.
Proof.
  revert p. induction w as [| c w IH]; intros p Hp; cbn in Hp; [lia |].
  destruct p; cbn; [discriminate |]. apply IH. lia.
Qed.

Lemma substring_full s : substring 0 (String.length s) s = s.
Proof. induction s as [| c s IH]; cbn; [reflexivity | now rewrite IH]. Qed.

(** An occurrence of [w] inside a prefix of [s] is an occurrence in [s],
    and it ends inside the prefix. *)
Lemma occurrence_in_prefix s cut m w :
  w <> EmptyString ->
  substring m (String.length w) (substring 0 cut s) = w ->
  substring m (String.length w) s = w /\ m + String.length w <= cut.
Proof.
  intros Hne H.
  assert (Hk : 0 < String.length w) by (destruct w; [congruence | cbn; lia]).
  assert (Hcut : m + String.length w <= cut).
  { destruct (le_lt_dec (m + String.length w) cut) as [? | Hgt]; [assumption |].
    exfalso. apply (get_length_Some w (String.length w - 1)); [lia |].
    assert (String.get (String.length w - 1)
              (substring m (String.length w) (substring 0 cut s)) = None) as G.
    { rewrite substring_correct1 by lia. apply substring_correct2. lia. }
    rewrite H in G. exact G. }
  split; [| exact Hcut].
  apply get_correct. intros p.
  destruct (le_lt_dec (String.length w) p) as [Hge | Hlt].
  - rewrite substring_correct2 by assumption. symmetry. now apply get_length_None.
  - rewrite substring_correct1 by assumption.
    assert (String.get p (substring m (String.length w) (substring 0 cut s))
            = String.get (p + m) s) as G.
    { rewrite substring_correct1 by assumption.
      rewrite substring_correct1 by lia. f_equal. lia. }
    rewrite H in G. symmetry. exact G.
Qed.

Lemma no_occurrence_before s w cut :
  w <> EmptyString ->
  cut <= match String.index 0 w s with Some h => h | None => String.length s end ->
  String.index 0 w (substring 0 cut s) = None.
Proof.
  intros Hne Hcut.
  destruct (String.index 0 w (substring 0 cut s)) as [m |] eqn:E; [| reflexivity].
  exfalso. apply index_correct1 in E.
  apply occurrence_in_prefix in E as [E Hm]; [| assumption].
  assert (0 < String.length w) by (destruct w; [congruence | cbn; lia]).
  destruct (String.index 0 w s) as [h |] eqn:I.
  - apply (index_correct2 _ _ _ _ I m); [lia | lia | exact E].
  - apply (index_correct3 0 m _ _ I); [assumption | lia | exact E].
Qed.

(** X13. [stripComments] returns a prefix of the line that holds neither a
    hash sign nor two slashes in a row; a line without these is returned
    as it is, and stripping twice is stripping once. *)
Theorem stripComments_spec line :
  String.index 0 "#" (stripComments line) = None
  /\ String.index 0 "//" (stripComments line) = None
  /\ (exists cut, stripComments line = substring 0 cut line)
  /\ (String.index 0 "#" line = None -> String.index 0 "//" line = None ->
      stripComments line = line)
  /\ stripComments (stripComments line) = stripComments line.
Proof.
  assert (H1 : String.index 0 "#" (stripComments line) = None).
  { apply no_occurrence_before; [discriminate |].
    destruct (String.index 0 "#" line); lia. }
  assert (H2 : String.index 0 "//" (stripComments line) = None).
  { apply no_occurrence_before; [discriminate |].
    destruct (String.index 0 "//" line); lia. }
  assert (H3 : forall l, String.index 0 "#" l = None -> String.index 0 "//" l = None ->
                         stripComments l = l).
  { intros l Ha Hb. unfold stripComments. rewrite Ha, Hb, Nat.min_id.
    apply substring_full. }
  repeat split; try assumption.
  - eexists. reflexivity.
  - apply H3.
  - apply H3; assumption.
Qed.

Lemma append_nil_l t : EmptyString ++ t = t.
Proof. reflexivity. Qed.

Lemma append_cons c x t : String.String c x ++ t = String.String c (x ++ t).
Proof. reflexivity. Qed.

Lemma append_nil_r x : x ++ EmptyString = x.
Proof. induction x as [| c x IH]; [reflexivity |]. now rewrite append_cons, IH. Qed.

Lemma take_drop_stops p t :
  stops p t -> str_take_while p t = EmptyString /\ str_drop_while p t = t.
Proof. destruct t as [| d t']; cbn; [auto |]. intros ->. auto. Qed.

Lemma take_drop_app p s t :
  stops p t ->
  str_take_while p (str_take_while p s ++ t) = str_take_while p s
  /\ str_drop_while p (str_take_while p s ++ t) = t.
Proof.
  intros Ht. induction s as [| c r IH]; cbn [str_take_while].
  - rewrite append_nil_l. now apply take_drop_stops.
  - destruct (p c) eqn:Hc.
    + rewrite append_cons. cbn [str_take_while str_drop_while]. rewrite Hc.
      destruct IH as [-> ->]. auto.
    + rewrite append_nil_l. now apply take_drop_stops.
Qed.

Lemma take_idem p s : str_take_while p (str_take_while p s) = str_take_while p s.
Proof.
  destruct (take_drop_app p s EmptyString I) as [H _].
  rewrite append_nil_r in H. exact H.
Qed.

Lemma drop_take p s : str_drop_while p (str_take_while p s) = EmptyString.
Proof.
  destruct (take_drop_app p s EmptyString I) as [_ H].
  rewrite append_nil_r in H. exact H.
Qed.

Lemma isspace_digit c : isDigit c = true -> isspace c = false.
Proof.
  destruct c as [b0 b1 b2 b3 b4 b5 b6 b7].
  destruct b0, b1, b2, b3, b4, b5, b6, b7; vm_compute; congruence.
Qed.

Lemma take_head p s c r : str_take_while p s = String.String c r -> p c = true.
Proof.
  destruct s as [| d s']; cbn; [discriminate |].
  destruct (p d) eqn:E; [| discriminate]. intros [= <- _]. exact E.
Qed.

Lemma match_unsigned_digits s m rest :
  match_unsigned s = Some (m, rest) ->
  unsigned_digits m <> 0
  /\ (exists c r, m = String.String c r /\ isspace c = false
                  /\ c <> "-"%char /\ c <> "+"%char).
Proof.
  unfold match_unsigned, unsigned_digits.
  set (ip := str_take_while isDigit s).
  assert (Hip : forall t, stops isDigit t ->
            str_take_while isDigit (ip ++ t) = ip
            /\ str_drop_while isDigit (ip ++ t) = t).
  { intros t Ht. apply take_drop_app. exact Ht. }
  assert (Hhead : forall c r, ip = String.String c r ->
            isspace c = false /\ c <> "-"%char /\ c <> "+"%char).
  { intros c r E. apply take_head in E. split; [now apply isspace_digit |].
    split; intros ->; discriminate. }
  assert (Hplain : negb (String.length ip =? 0) = true ->
            String.length (str_take_while isDigit ip)
            + String.length match str_drop_while isDigit ip with
                            | String.String "." r => str_take_while isDigit r
                            | _ => EmptyString
                            end <> 0
            /\ (exists c r, ip = String.String c r /\ isspace c = false
                            /\ c <> "-"%char /\ c <> "+"%char)).
  { intros Hn. unfold ip at 1 2. rewrite take_idem, drop_take. fold ip.
    destruct ip as [| c r] eqn:E; [discriminate |]. split; [cbn; lia |].
    exists c, r. split; [reflexivity |]. exact (Hhead c r eq_refl). }
  destruct (str_drop_while isDigit s) as [| d r'] eqn:D.
  { destruct (negb _) eqn:Hn; [| discriminate]. intros [= <- <-]. now apply Hplain. }
  destruct (Ascii.eqb_spec d ".") as [-> | Hd].
  2:{ intros H.
      assert (m = ip /\ negb (String.length ip =? 0) = true) as [-> Hn].
      { revert H. clear - Hd.
        destruct d as [[] [] [] [] [] [] [] []]; try congruence;
          destruct (negb _); intros [= <- <-]; auto. }
      now apply Hplain. }
  destruct (negb (String.length (str_take_while isDigit r') =? 0)) eqn:Hf.
  - intros [= <- <-].
    destruct (Hip (String.String "." (str_take_while isDigit r')) eq_refl) as [-> ->].
    rewrite take_idem. split.
    + apply negb_true_iff, Nat.eqb_neq in Hf. lia.
    + destruct ip as [| c r] eqn:E.
      * exists "."%char, (str_take_while isDigit r'). repeat split; discriminate.
      * exists c, (r ++ String.String "." (str_take_while isDigit r')).
        split; [reflexivity |]. exact (Hhead c r eq_refl).
  - destruct (negb _) eqn:Hn; [| discriminate]. intros [= <- <-]. now apply Hplain.
Qed.

Lemma stof_unsigned m c r :
  m = String.String c r -> isspace c = false -> c <> "-"%char -> c <> "+"%char ->
  unsigned_digits m <> 0 -> stof m <> Thrown invalid_argument.
Proof.
  intros -> Hs Hm Hp Hd. unfold stof. cbn [str_drop_while]. rewrite Hs.
  assert (match String.String c r with
          | String.String "-" r0 => (true, r0)
          | String.String "+" r0 => (false, r0)
          | _ => (false, String.String c r)
          end = (false, String.String c r)) as ->.
  { destruct c as [[] [] [] [] [] [] [] []]; try reflexivity; congruence. }
  unfold unsigned_digits in Hd.
  destruct (_ =? 0) eqn:E; [apply Nat.eqb_eq in E; contradiction |].
  destruct (binary32_round _); discriminate.
Qed.

Lemma stof_signed c m :
  (c = "-"%char \/ c = "+"%char) -> unsigned_digits m <> 0 ->
  stof (String.String c m) <> Thrown invalid_argument.
Proof.
  intros Hc Hd. unfold stof, unsigned_digits in *.
  destruct Hc as [-> | ->]; cbn [str_drop_while isspace];
    change (isspace "-") with false; change (isspace "+") with false; cbv iota;
    (destruct (_ =? 0) eqn:E; [apply Nat.eqb_eq in E; contradiction |]);
    destruct (binary32_round _); discriminate.
Qed.

Lemma match_number_stof s m rest :
  match_number s = Some (m, rest) -> stof m <> Thrown invalid_argument.
Proof.
  unfold match_number. destruct s as [| c r]; [discriminate |].
  destruct ((c =? "-")%char || (c =? "+")%char) eqn:Hc.
  - destruct (match_unsigned r) as [[m' rest'] |] eqn:M; [| discriminate].
    intros [= <- <-]. apply match_unsigned_digits in M as [Hd _].
    apply stof_signed; [| exact Hd].
    apply orb_true_iff in Hc as [H | H]; apply Ascii.eqb_eq in H; auto.
  - intros M. apply match_unsigned_digits in M as (Hd & c' & r' & -> & Hs & Hm & Hp).
    eapply stof_unsigned; eauto.
Qed.

Lemma number_matches_stof n s m :
  In m (number_matches n s) -> stof m <> Thrown invalid_argument.
Proof.
  revert s. induction n as [| n IH]; intros s; [contradiction |]. cbn [number_matches].
  destruct s as [| c r]; [contradiction |].
  destruct (match_number (String.String c r)) as [[m' rest] |] eqn:M.
  - intros [<- | H]; [eapply match_number_stof; eauto | eapply IH; eauto].
  - apply IH.
Qed.

Lemma stof_all_throw ms e :
  stof_all ms = Thrown e -> exists m, In m ms /\ stof m = Thrown e.
Proof.
  induction ms as [| m ms IH]; cbn [stof_all]; [discriminate |].
  destruct (stof m) as [v | e'] eqn:S.
  - destruct (stof_all ms) as [vs | e'']; [discriminate |].
    intros [= ->]. destruct (IH eq_refl) as (m' & Hin & Hm'). exists m'. split; [now right | exact Hm'].
  - intros [= ->]. exists m. split; [now left | exact S].
Qed.

(** X14. Every match of the number pattern holds a digit, so the only
    exception that can leave [parseNumbers] is the [std::out_of_range] of
    [std::stof], never [std::invalid_argument]. *)
Theorem parseNumbers_throws_only_out_of_range line e :
  parseNumbers line = Thrown e -> e = out_of_range.
Proof.
  unfold parseNumbers. intros H. apply stof_all_throw in H as (m & Hin & Hm).
  apply number_matches_stof in Hin. destruct e; [congruence | reflexivity].
Qed.

Lemma has_char_substring c s n m :
  has_char c s = false -> has_char c (substring n m s) = false.
Proof.
  revert n m. induction s as [| d r IH]; intros n m H.
  - destruct n, m; reflexivity.
  - cbn in H. apply orb_false_iff in H as [Hd Hr].
    destruct n; cbn [substring].
    + destruct m; [reflexivity |]. cbn. rewrite Hd. now apply IH.
    + now apply IH.
Qed.

Lemma has_char_take c p s : has_char c s = false -> has_char c (str_take_while p s) = false.
Proof.
  induction s as [| d r IH]; intros H; [reflexivity |].
  cbn in H. apply orb_false_iff in H as [Hd Hr]. cbn.
  destruct (p d); [| reflexivity]. cbn. rewrite Hd. now apply IH.
Qed.

Lemma has_char_drop c p s : has_char c s = false -> has_char c (str_drop_while p s) = false.
Proof.
  induction s as [| d r IH]; intros H; [reflexivity |].
  pose proof H as H'. cbn in H. apply orb_false_iff in H as [Hd Hr]. cbn.
  destruct (p d); [now apply IH | exact H'].
Qed.

Lemma has_char_getlines c s :
  has_char c s = false -> Forall (fun l => has_char c l = false) (getlines s).
Proof.
  induction s as [| d r IH]; intros H; [constructor |].
  cbn in H. apply orb_false_iff in H as [Hd Hr]. specialize (IH Hr).
  cbn [getlines]. destruct (Ascii.eqb d LF); [constructor; [reflexivity | exact IH] |].
  destruct (getlines r) as [| l ls].
  - constructor; [cbn; now rewrite Hd | constructor].
  - inversion IH; subst. constructor; [cbn; rewrite Hd; assumption | assumption].
Qed.

Lemma has_char_neq c t : has_char c t = false -> String.eqb t (String.String c EmptyString) = false.
Proof.
  intros H. apply String.eqb_neq. intros ->. cbn in H.
  rewrite Ascii.eqb_refl in H. discriminate.
Qed.

Lemma tokenizeLine_no_open n s :
  has_char "{" s = false ->
  Forall (fun t => String.eqb t "{" = false) (tokenizeLine_loop n s).
Proof.
  revert s. induction n as [| n IH]; intros s H; [constructor |].
  cbn [tokenizeLine_loop].
  pose proof (has_char_drop "{" isspace s H) as H1.
  destruct (str_drop_while isspace s) as [| c rest] eqn:E; [constructor |].
  pose proof H1 as H1'. cbn in H1. apply orb_false_iff in H1 as [Hc Hrest].
  destruct (is_brace c) eqn:Hb.
  - constructor; [| now apply IH].
    unfold is_brace in Hb. rewrite Hc in Hb. cbn in Hb. apply Ascii.eqb_eq in Hb. now subst.
  - destruct (Ascii.eqb c DQUOTE).
    + constructor.
      * apply has_char_neq. now apply has_char_take.
      * apply IH.
        pose proof (has_char_drop "{" (fun x => negb (Ascii.eqb x DQUOTE)) rest Hrest) as Hd.
        destruct (str_drop_while _ rest) as [| a t]; [reflexivity |].
        cbn in Hd. now apply orb_false_iff in Hd as [_ Hd].
    + constructor.
      * apply has_char_neq. now apply has_char_take.
      * apply IH. now apply has_char_drop.
Qed.

Lemma updateScopes_no_open prev tokens pending :
  Forall (fun t => String.eqb t "{" = false) tokens ->
  fst (updateScopes prev tokens [] pending) = [].
Proof.
  intros H. revert prev. induction H as [| t ts Ht _ IH]; intros prev; [reflexivity |].
  cbn [updateScopes]. rewrite Ht. cbn [length Nat.eqb negb]. rewrite andb_false_r.
  apply IH.
Qed.

Section NoScope.
Variable str_to_float : string -> option float.

Lemma parseLine_no_scope st l :
  scopeStack st = [] -> has_char "{" l = false ->
  exists st', parseLine str_to_float None st l = Returned st'
    /\ result st' = result st /\ scopeStack st' = [].
Proof.
  intros Hs Hl. unfold parseLine.
  destruct (String.eqb _ EmptyString); [eauto |].
  set (cleaned := trim (stripComments l)).
  assert (Hc : has_char "{" cleaned = false).
  { unfold cleaned, trim, stripComments.
    destruct (find_first_not_of _ _); [| reflexivity].
    destruct (find_last_not_of _ _); [| reflexivity].
    now do 2 apply has_char_substring. }
  pose proof (updateScopes_no_open None (tokenizeLine cleaned) (pendingBlockName st)
                (tokenizeLine_no_open _ _ Hc)) as Hu.
  rewrite Hs.
  destruct (updateScopes None (tokenizeLine cleaned) [] (pendingBlockName st))
    as [stack pending0]. cbn [fst] in Hu. subst stack.
  cbn [currentTextureName rev List.find]. eauto.
Qed.

Lemma parseLines_no_scope st ls :
  scopeStack st = [] -> Forall (fun l => has_char "{" l = false) ls ->
  exists st', parseLines str_to_float None st ls = Returned st'
    /\ result st' = result st.
Proof.
  intros Hs H. revert st Hs. induction H as [| l ls Hl _ IH]; intros st Hs; [cbn; eauto |].
  cbn [parseLines].
  destruct (parseLine_no_scope st l Hs Hl) as (st1 & -> & Hr & Hs1).
  destruct (IH st1 Hs1) as (st' & -> & Hr'). exists st'. split; congruence.
Qed.

(** X15. Without a default texture name, contents that never open a scope
    yield the empty mapping: no line is read as a rect, and no number is
    converted, so nothing is thrown either. *)
Theorem parse_without_scope_is_empty contents :
  has_char "{" contents = false ->
  parseHotspotRectFile str_to_float contents None = Returned (Success ∅).
Proof.
  intros H. unfold parseHotspotRectFile.
  destruct (parseLines_no_scope (mkParseState ∅ [] None) (getlines contents) eq_refl
              (has_char_getlines _ _ H)) as (st' & -> & ->).
  reflexivity.
Qed.
End NoScope.

Lemma parse_without_scope_is_empty_witness :
  parseHotspotRectFile str_to_float_decimal "0 0 32 32 tileu" None
  = Returned (Success ∅).
Proof.
  apply (parse_without_scope_is_empty str_to_float_decimal "0 0 32 32 tileu").
  reflexivity.
Defined.


Lemma stripComments_spec_witness :
  stripComments "0 0 32 32" = "0 0 32 32".
Proof.
  apply (proj1 (proj2 (proj2 (proj2 (stripComments_spec "0 0 32 32")))));
    reflexivity.
Defined.

Example stripComments_cuts_at_first_marker :
  stripComments "a # b // c" = "a " /\ stripComments "a // b # c" = "a ".
Proof. split; reflexivity. Qed.

Lemma parseNumbers_throws_only_out_of_range_witness :
  out_of_range = out_of_range.
Proof.
  apply (parseNumbers_throws_only_out_of_range
           "1000000000000000000000000000000000000000" out_of_range).
  vm_compute. reflexivity.
Defined.

Lemma keywords_ignore_case_witness :
  isRectanglesKeyword (toLower "Rectangle") = isRectanglesKeyword "Rectangle".
Proof. apply (proj1 (keywords_ignore_case "Rectangle" [] "tileu")). Defined.

End HotspotFacts.

(** ** Bezier patches *)

Module PatchFacts.
Import PatchResize Patch PatchAux PatchResizeFacts.

Section Collect.
Context {V : Type}.
Implicit Types cps : list V.


Lemma odd_half x : 2 < x -> x mod 2 = 1 -> x < 2 ^ size_bits ->
  size_sub x 1 / 2 = (x - 1) / 2 /\ x = 2 * ((x - 1) / 2) + 1 /\ 0 < (x - 1) / 2.
Proof.
  intros H2 Ho Hb. unfold size_sub. rewrite size_wrap_small by lia.
  pose proof (Z.div_mod x 2 ltac:(lia)) as Hd. rewrite Ho in Hd.
  assert ((x - 1) / 2 = x / 2) as ->.
  { assert (x - 1 = x / 2 * 2) as -> by lia. now rewrite Z.div_mul by lia. }
  repeat split; lia.
Qed.

Lemma collectSurface_cells cps rows cols i j :
  grid_dims rows cols (length cps) ->
  0 <= i < (rows - 1) / 2 -> 0 <= j < (cols - 1) / 2 ->
  exists scp, collectSurfaceControlPoints cps cols i j = Some scp
    /\ length scp = 3%nat
    /\ forall a b, (a < 3)%nat -> (b < 3)%nat ->
         (scp !! a) ≫= (fun row => row !! b)
         = cps !! Z.to_nat ((2 * i + Z.of_nat a) * cols + (2 * j + Z.of_nat b))
         /\ is_Some (cps !! Z.to_nat ((2 * i + Z.of_nat a) * cols + (2 * j + Z.of_nat b))).
Proof.
  intros (Hr & Hc & Hro & Hco & Hb & Hlen) Hi Hj.
  assert (rows < 2 ^ size_bits) by nia. assert (cols < 2 ^ size_bits) by nia.
  destruct (odd_half rows Hr Hro ltac:(assumption)) as (_ & Er & _).
  destruct (odd_half cols Hc Hco ltac:(assumption)) as (_ & Ec & _).
  assert (Hidx : forall a b, (a < 3)%nat -> (b < 3)%nat ->
    size_add (size_add (size_mul (size_add (Z.of_nat a) (size_mul 2 i)) cols)
                       (Z.of_nat b)) (size_mul 2 j)
    = (2 * i + Z.of_nat a) * cols + (2 * j + Z.of_nat b)
    /\ 0 <= (2 * i + Z.of_nat a) * cols + (2 * j + Z.of_nat b) < rows * cols).
  { intros a b Ha Hb'.
    assert (0 <= 2 * i + Z.of_nat a <= rows - 1) by lia.
    assert (0 <= 2 * j + Z.of_nat b <= cols - 1) by lia.
    assert (0 <= (2 * i + Z.of_nat a) * cols <= (rows - 1) * cols) by nia.
    assert (0 <= (2 * i + Z.of_nat a) * cols + (2 * j + Z.of_nat b) < rows * cols) by nia.
    split; [| assumption].
    unfold size_add, size_mul.
    rewrite (size_wrap_small (2 * i)) by lia.
    rewrite (size_wrap_small (2 * j)) by lia.
    rewrite (size_wrap_small (Z.of_nat a + 2 * i)) by lia.
    rewrite (size_wrap_small ((Z.of_nat a + 2 * i) * cols)) by nia.
    rewrite (size_wrap_small ((Z.of_nat a + 2 * i) * cols + Z.of_nat b)) by nia.
    rewrite size_wrap_small by nia. lia. }
  assert (Hin : forall a b, (a < 3)%nat -> (b < 3)%nat ->
    is_Some (cps !! Z.to_nat ((2 * i + Z.of_nat a) * cols + (2 * j + Z.of_nat b)))).
  { intros a b Ha Hb'. apply lookup_lt_is_Some.
    destruct (Hidx a b Ha Hb') as [_ Hlt]. lia. }
  unfold collectSurfaceControlPoints.
  set (cell := fun (row col : nat) =>
    at_ cps (size_add (size_add (size_mul (size_add (Z.of_nat row) (size_mul 2 i)) cols)
                                (Z.of_nat col)) (size_mul 2 j))).
  assert (Hcell : forall a b, (a < 3)%nat -> (b < 3)%nat ->
    cell a b = cps !! Z.to_nat ((2 * i + Z.of_nat a) * cols + (2 * j + Z.of_nat b))).
  { intros a b Ha Hb'. unfold cell, at_. now destruct (Hidx a b Ha Hb') as [-> _]. }
  destruct (mapM_seq_Some 3 (fun row => mapM (cell row) (seq 0 3)))
    as (scp & Hscp & Hl & Hrow).
  { intros a Ha. destruct (mapM_seq_Some 3 (cell a)) as (l & -> & _); [| eauto].
    intros b Hb'. rewrite Hcell by assumption. now apply Hin. }
  exists scp. split; [exact Hscp |]. split; [exact Hl |].
  intros a b Ha Hb'. split; [| now apply Hin].
  unfold SurfaceControlPoints in *. rewrite (Hrow a Ha).
  destruct (mapM_seq_Some 3 (cell a)) as (l & -> & _ & Hl3).
  { intros b' Hb''. rewrite Hcell by assumption. now apply Hin. }
  cbn. rewrite (Hl3 b Hb'). now apply Hcell.
Qed.



(** X16. For a grid whose row and column counts are odd and greater than two,
    collectAllSurfaceControlPoints returns one 3x3 block per surface, in
    row-major order of the surfaces, and the point (a, b) of surface (i, j) is
    the control point in row 2i+a, column 2j+b of the grid. *)
Theorem collectAllSurfaceControlPoints_spec cps rows cols :
  grid_dims rows cols (length cps) ->
  exists all, collectAllSurfaceControlPoints cps rows cols = Some all
    /\ Z.of_nat (length all) = ((rows - 1) / 2) * ((cols - 1) / 2)
    /\ forall i j, 0 <= i < (rows - 1) / 2 -> 0 <= j < (cols - 1) / 2 ->
         exists scp,
           all !! Z.to_nat (i * ((cols - 1) / 2) + j) = Some scp
           /\ collectSurfaceControlPoints cps cols i j = Some scp
           /\ forall a b, (a < 3)%nat -> (b < 3)%nat ->
                surfacePoint scp a b
                = cps !! Z.to_nat ((2 * i + Z.of_nat a) * cols + (2 * j + Z.of_nat b))
                /\ is_Some (surfacePoint scp a b).
Proof.
  intros Hd. pose proof Hd as (Hr & Hc & Hro & Hco & Hb & Hlen).
  assert (rows < 2 ^ size_bits) by nia. assert (cols < 2 ^ size_bits) by nia.
  destruct (odd_half rows Hr Hro ltac:(assumption)) as (Er1 & Er & Er0).
  destruct (odd_half cols Hc Hco ltac:(assumption)) as (Ec1 & Ec & Ec0).
  unfold collectAllSurfaceControlPoints. rewrite Er1, Ec1.
  set (sr := (rows - 1) / 2) in *. set (sc := (cols - 1) / 2) in *.
  destruct (grid_of_Some (Z.to_nat sr) (Z.to_nat sc)
              (fun surfaceRow surfaceCol =>
                 collectSurfaceControlPoints cps cols
                   (Z.of_nat surfaceRow) (Z.of_nat surfaceCol)))
    as (all & Hall & Hl & Hcell).
  { intros r c Hr' Hc'.
    destruct (collectSurface_cells cps rows cols (Z.of_nat r) (Z.of_nat c) Hd)
      as (scp & -> & _); [fold sr; lia | fold sc; lia | eauto]. }
  exists all. split; [exact Hall |]. split; [nia |].
  intros i j Hi Hj.
  destruct (collectSurface_cells cps rows cols i j Hd Hi Hj) as (scp & Hs & _ & Hsc).
  exists scp. split; [| split; [exact Hs |]].
  - specialize (Hcell (Z.to_nat i) (Z.to_nat j) ltac:(lia) ltac:(lia)).
    rewrite !Z2Nat.id in Hcell by lia. rewrite Hs in Hcell. rewrite <- Hcell.
    f_equal. rewrite Z2Nat.inj_add, Z2Nat.inj_mul by lia. reflexivity.
  - intros a b Ha Hb'. destruct (Hsc a b Ha Hb') as [E Hsome].
    unfold surfacePoint. rewrite E. split; [reflexivity | exact Hsome].
Qed.

(** X17. Neighbouring surfaces share their border: the last column of a
    surface is the first column of the surface to its right, and its last row
    is the first row of the surface below. *)
Theorem adjacent_surfaces_share_border cps rows cols i j s0 s1 (a : nat) :
  grid_dims rows cols (length cps) ->
  0 <= i < (rows - 1) / 2 -> 0 <= j < (cols - 1) / 2 -> (a < 3)%nat ->
  collectSurfaceControlPoints cps cols i j = Some s0 ->
  (j + 1 < (cols - 1) / 2 ->
   collectSurfaceControlPoints cps cols i (j + 1) = Some s1 ->
   surfacePoint s0 a 2 = surfacePoint s1 a 0 /\ is_Some (surfacePoint s0 a 2))
  /\ (i + 1 < (rows - 1) / 2 ->
      collectSurfaceControlPoints cps cols (i + 1) j = Some s1 ->
      surfacePoint s0 2 a = surfacePoint s1 0 a /\ is_Some (surfacePoint s0 2 a)).
Proof.
  intros Hd Hi Hj Ha H0.
  destruct (collectSurface_cells cps rows cols i j Hd Hi Hj) as (scp & Hs & _ & Hc0).
  assert (scp = s0) as -> by congruence.
  split.
  - intros Hj1 H1.
    destruct (collectSurface_cells cps rows cols i (j + 1) Hd Hi ltac:(lia))
      as (scp1 & Hs1 & _ & Hc1).
    assert (scp1 = s1) as -> by congruence.
    destruct (Hc0 a 2%nat Ha ltac:(lia)) as [E0 S0].
    destruct (Hc1 a 0%nat Ha ltac:(lia)) as [E1 _].
    unfold surfacePoint. rewrite E0, E1. split; [f_equal; lia | exact S0].
  - intros Hi1 H1.
    destruct (collectSurface_cells cps rows cols (i + 1) j Hd ltac:(lia) Hj)
      as (scp1 & Hs1 & _ & Hc1).
    assert (scp1 = s1) as -> by congruence.
    destruct (Hc0 2%nat a ltac:(lia) Ha) as [E0 S0].
    destruct (Hc1 0%nat a ltac:(lia) Ha) as [E1 _].
    unfold surfacePoint. rewrite E0, E1. split; [f_equal; lia | exact S0].
Qed.


Lemma surfaceOf_range g q n :
  0 < q -> 0 <= n -> 0 <= g < n * q + 1 -> n * q + 1 < 2 ^ size_bits -> 0 < n ->
  0 <= surfaceOf g q < n
  /\ size_sub g (size_mul (surfaceOf g q) q) = g - surfaceOf g q * q
  /\ 0 <= g - surfaceOf g q * q <= q
  /\ (0 < g -> 0 < g - surfaceOf g q * q).
Proof.
  intros Hq Hn Hg Hb Hn0. unfold surfaceOf.
  destruct (Z.ltb_spec 0 g) as [Hpos | Hz].
  - assert (E : size_sub g 1 = g - 1) by (unfold size_sub; apply size_wrap_small; lia).
    rewrite !E.
    assert (0 <= (g - 1) / q) by (apply Z.div_pos; lia).
    assert ((g - 1) / q < n) by (apply Z.div_lt_upper_bound; nia).
    pose proof (Z.mul_div_le (g - 1) q Hq).
    pose proof (Z.mul_succ_div_gt (g - 1) q Hq).
    assert (0 <= (g - 1) / q * q <= g - 1) by nia.
    unfold size_sub, size_mul.
    rewrite (size_wrap_small ((g - 1) / q * q)) by nia.
    rewrite size_wrap_small by nia.
    repeat split; nia.
  - assert (g = 0) as -> by lia. rewrite Z.div_0_l by lia.
    unfold size_sub, size_mul. cbn.
    repeat split; try lia; now vm_compute.
Qed.

(** X18. With s subdivisions (s < 32), evaluatePatchGrid returns a grid of
    (surfaceRows * 2^s + 1) * (surfaceCols * 2^s + 1) points in row-major
    order, and each grid point is the evaluation of the surface chosen by
    its grid row and column at the parameters (u, v) of that column and row. *)
Theorem evaluatePatchGrid_spec (eval : @SurfaceControlPoints V -> Q -> Q -> V)
    cps rows cols s :
  grid_dims rows cols (length cps) -> 0 <= s < 32 ->
  rows * 2 ^ s < 2 ^ size_bits -> cols * 2 ^ s < 2 ^ size_bits ->
  exists grid, evaluatePatchGrid eval cps rows cols s = Some grid
    /\ Z.of_nat (length grid)
       = ((rows - 1) / 2 * 2 ^ s + 1) * ((cols - 1) / 2 * 2 ^ s + 1)
    /\ forall gr gc,
         0 <= gr < (rows - 1) / 2 * 2 ^ s + 1 ->
         0 <= gc < (cols - 1) / 2 * 2 ^ s + 1 ->
         0 <= surfaceOf gr (2 ^ s) < (rows - 1) / 2
         /\ 0 <= surfaceOf gc (2 ^ s) < (cols - 1) / 2
         /\ exists scp,
              collectSurfaceControlPoints cps cols
                (surfaceOf gr (2 ^ s)) (surfaceOf gc (2 ^ s)) = Some scp
              /\ grid !! Z.to_nat (gr * ((cols - 1) / 2 * 2 ^ s + 1) + gc)
                 = Some (eval scp (parameterOf gc (2 ^ s)) (parameterOf gr (2 ^ s))).
Proof.
  intros Hd Hs Hrq Hcq. pose proof Hd as (Hr & Hc & Hro & Hco & Hb & Hlen).
  assert (rows < 2 ^ size_bits) by nia. assert (cols < 2 ^ size_bits) by nia.
  destruct (odd_half rows Hr Hro ltac:(assumption)) as (Er1 & Er & Er0).
  destruct (odd_half cols Hc Hco ltac:(assumption)) as (Ec1 & Ec & Ec0).
  destruct (collectAllSurfaceControlPoints_spec cps rows cols Hd)
    as (all & Hall & Hlall & Hsurf).
  unfold evaluatePatchGrid. rewrite Hall.
  assert (Hq : 0 < 2 ^ s) by (apply Z.pow_pos_nonneg; lia).
  assert (Hq32 : 2 ^ s < 2 ^ 32) by (apply Z.pow_lt_mono_r; lia).
  unfold shl1. destruct (Z.ltb_spec s 32); [| lia].
  rewrite (Z.mod_small (2 ^ s)) by lia.
  rewrite Er1, Ec1.
  set (q := 2 ^ s) in *. set (sr := (rows - 1) / 2) in *. set (sc := (cols - 1) / 2) in *.
  assert (Hh : size_add (size_mul sr q) 1 = sr * q + 1).
  { unfold size_add, size_mul. rewrite (size_wrap_small (sr * q)) by nia.
    apply size_wrap_small. nia. }
  assert (Hw : size_add (size_mul sc q) 1 = sc * q + 1).
  { unfold size_add, size_mul. rewrite (size_wrap_small (sc * q)) by nia.
    apply size_wrap_small. nia. }
  rewrite Hh, Hw.
  assert (Hcellok : forall gr gc, 0 <= gr < sr * q + 1 -> 0 <= gc < sc * q + 1 ->
    0 <= surfaceOf gr q < sr /\ 0 <= surfaceOf gc q < sc
    /\ exists scp,
         collectSurfaceControlPoints cps cols (surfaceOf gr q) (surfaceOf gc q) = Some scp
         /\ at_ all (size_add (size_mul (surfaceOf gr q) sc) (surfaceOf gc q)) = Some scp).
  { intros gr gc Hgr Hgc.
    destruct (surfaceOf_range gr q sr Hq ltac:(lia) Hgr ltac:(nia) Er0) as (HI & _).
    destruct (surfaceOf_range gc q sc Hq ltac:(lia) Hgc ltac:(nia) Ec0) as (HJ & _).
    split; [exact HI |]. split; [exact HJ |].
    destruct (Hsurf _ _ HI HJ) as (scp & Hlook & Hcol & _).
    exists scp. split; [exact Hcol |].
    unfold at_, size_add, size_mul.
    rewrite (size_wrap_small (surfaceOf gr q * sc)) by nia.
    rewrite size_wrap_small by nia. exact Hlook. }
  destruct (grid_of_Some (Z.to_nat (sr * q + 1)) (Z.to_nat (sc * q + 1))
    (fun gridRow gridCol =>
       match at_ all (size_add (size_mul (surfaceOf (Z.of_nat gridRow) q) sc)
                               (surfaceOf (Z.of_nat gridCol) q)) with
       | Some scp => Some (eval scp (parameterOf (Z.of_nat gridCol) q)
                                    (parameterOf (Z.of_nat gridRow) q))
       | None => None
       end)) as (grid & Hgrid & Hlg & Hcell).
  { intros r c Hr' Hc'.
    destruct (Hcellok (Z.of_nat r) (Z.of_nat c) ltac:(lia) ltac:(lia))
      as (_ & _ & scp & _ & ->). eauto. }
  exists grid. split; [exact Hgrid |]. split; [nia |].
  intros gr gc Hgr Hgc.
  destruct (Hcellok gr gc Hgr Hgc) as (HI & HJ & scp & Hcol & Hat).
  split; [exact HI |]. split; [exact HJ |].
  exists scp. split; [exact Hcol |].
  specialize (Hcell (Z.to_nat gr) (Z.to_nat gc) ltac:(lia) ltac:(lia)).
  rewrite !Z2Nat.id in Hcell by lia. rewrite Hat in Hcell. rewrite <- Hcell.
  f_equal. rewrite Z2Nat.inj_add, Z2Nat.inj_mul by lia. reflexivity.
Qed.


(** X19. Grid line 0 samples surface 0 at parameter 0; a grid line shared
    by two surfaces samples the earlier surface at parameter 1; every other
    line between two shared lines samples the surface between them. *)
Theorem shared_grid_lines_sample_earlier_surface q k g :
  0 < q -> 0 <= k -> (k + 1) * q < 2 ^ size_bits ->
  (surfaceOf 0 q = 0 /\ (parameterOf 0 q == 0)%Q)
  /\ (surfaceOf ((k + 1) * q) q = k /\ (parameterOf ((k + 1) * q) q == 1)%Q)
  /\ (k * q < g <= (k + 1) * q -> surfaceOf g q = k).
Proof.
  intros Hq Hk Hb.
  assert (Hin : forall x, k * q < x <= (k + 1) * q -> surfaceOf x q = k).
  { intros x Hx. unfold surfaceOf. destruct (Z.ltb_spec 0 x); [| nia].
    unfold size_sub. rewrite size_wrap_small by nia.
    symmetry. apply (Z.div_unique (x - 1) q k (x - 1 - k * q)); nia. }
  split; [| split].
  - unfold parameterOf, surfaceOf. cbn [Z.ltb Z.compare].
    rewrite Z.div_0_l by lia. split; [reflexivity |].
    unfold size_sub, size_mul. rewrite Z.mul_0_l.
    change (size_wrap 0) with 0. change (size_wrap (0 - 0)) with 0.
    unfold Qdiv. now rewrite Qmult_0_l.
  - rewrite (Hin ((k + 1) * q)) by nia. split; [reflexivity |].
    unfold parameterOf. rewrite (Hin ((k + 1) * q)) by nia.
    unfold size_sub, size_mul. rewrite (size_wrap_small (k * q)) by nia.
    rewrite size_wrap_small by nia.
    replace ((k + 1) * q - k * q) with q by ring.
    apply Qmult_inv_r. unfold Qeq. cbn. lia.
  - apply Hin.
Qed.

End Collect.

Lemma dims_3x3 : grid_dims 3 3 9.
Proof. unfold grid_dims. repeat split; now vm_compute. Qed.

Lemma collectAllSurfaceControlPoints_spec_witness :
  exists all, collectAllSurfaceControlPoints [1; 2; 3; 4; 5; 6; 7; 8; 9] 3 3 = Some all
    /\ Z.of_nat (length all) = ((3 - 1) / 2) * ((3 - 1) / 2)
    /\ forall i j, 0 <= i < (3 - 1) / 2 -> 0 <= j < (3 - 1) / 2 ->
         exists scp,
           all !! Z.to_nat (i * ((3 - 1) / 2) + j) = Some scp
           /\ collectSurfaceControlPoints [1; 2; 3; 4; 5; 6; 7; 8; 9] 3 i j = Some scp
           /\ forall a b, (a < 3)%nat -> (b < 3)%nat ->
                surfacePoint scp a b
                = [1; 2; 3; 4; 5; 6; 7; 8; 9]
                    !! Z.to_nat ((2 * i + Z.of_nat a) * 3 + (2 * j + Z.of_nat b))
                /\ is_Some (surfacePoint scp a b).
Proof.
  apply (collectAllSurfaceControlPoints_spec [1; 2; 3; 4; 5; 6; 7; 8; 9] 3 3 dims_3x3).
Defined.


Lemma dims_3x5 : grid_dims 3 5 (length grid_3x5).
Proof. unfold grid_dims. repeat split; now vm_compute. Qed.

Lemma adjacent_surfaces_share_border_witness :
  surfacePoint [[1; 2; 3]; [6; 7; 8]; [11; 12; 13]] 1 2
  = surfacePoint [[3; 4; 5]; [8; 9; 10]; [13; 14; 15]] 1 0
  /\ is_Some (surfacePoint [[1; 2; 3]; [6; 7; 8]; [11; 12; 13]] 1 2).
Proof.
  apply (proj1 (adjacent_surfaces_share_border grid_3x5 3 5 0 0
                  [[1; 2; 3]; [6; 7; 8]; [11; 12; 13]]
                  [[3; 4; 5]; [8; 9; 10]; [13; 14; 15]] 1
                  dims_3x5 ltac:(now vm_compute) ltac:(now vm_compute)
                  ltac:(lia) eq_refl));
    [now vm_compute | reflexivity].
Defined.

Lemma evaluatePatchGrid_spec_witness :
  exists grid,
    evaluatePatchGrid (fun scp u v => 0) [1; 2; 3; 4; 5; 6; 7; 8; 9] 3 3 1 = Some grid
    /\ Z.of_nat (length grid) = ((3 - 1) / 2 * 2 ^ 1 + 1) * ((3 - 1) / 2 * 2 ^ 1 + 1).
Proof.
  destruct (evaluatePatchGrid_spec (fun scp u v => 0) [1; 2; 3; 4; 5; 6; 7; 8; 9] 3 3 1
              dims_3x3 ltac:(lia) ltac:(now vm_compute) ltac:(now vm_compute))
    as (grid & H1 & H2 & _).
  exists grid. split; assumption.
Defined.

Lemma shared_grid_lines_sample_earlier_surface_witness :
  surfaceOf ((0 + 1) * 4) 4 = 0 /\ (parameterOf ((0 + 1) * 4) 4 == 1)%Q.
Proof.
  apply (proj1 (proj2 (shared_grid_lines_sample_earlier_surface 4 0 0
                         ltac:(lia) ltac:(lia) ltac:(now vm_compute)))).
Defined.


Section Facts.
Context {Point Normal Vec3 BBox Builder SurfaceValue : Type}.
Context (xyz : Point -> Vec3) (builder_new : Builder)
        (builder_add : Builder -> Vec3 -> Builder) (builder_bounds : Builder -> BBox).

Abbreviation BezierPatch := (@BezierPatch Point Normal BBox SurfaceValue).
Abbreviation setControlPoint := (setControlPoint xyz builder_new builder_add builder_bounds).
Abbreviation computeBounds := (computeBounds xyz builder_new builder_add builder_bounds).

Implicit Types p : BezierPatch.

Lemma cellIndex_small p r c :
  valid p -> 0 <= r < m_pointRowCount p -> 0 <= c < m_pointColumnCount p ->
  cellIndex p r c = r * m_pointColumnCount p + c
  /\ 0 <= r * m_pointColumnCount p + c < m_pointRowCount p * m_pointColumnCount p.
Proof.
  intros (Hr & Hc & _ & _ & Hb & _) Hrow Hcol.
  assert (0 <= r * m_pointColumnCount p + c
          < m_pointRowCount p * m_pointColumnCount p) by nia.
  split; [| assumption].
  unfold cellIndex, size_add, size_mul.
  rewrite (size_wrap_small (r * _)) by nia. apply size_wrap_small. lia.
Qed.

Lemma cellIndex_inj p r c r' c' :
  0 <= c < m_pointColumnCount p -> 0 <= c' < m_pointColumnCount p ->
  r * m_pointColumnCount p + c = r' * m_pointColumnCount p + c' ->
  r = r' /\ c = c'.
Proof. intros Hc Hc' H. assert (r = r') by nia. subst. lia. Qed.

(** X20. On a valid patch, setControlPoint inside the grid succeeds, keeps
    the patch valid, recomputes the bounds from the new points, makes
    controlPoint return the new point at that cell and leaves every other
    cell as it was; a row or column outside the grid violates the contract
    of both functions. *)
Theorem setControlPoint_controlPoint p row col point :
  valid p ->
  (0 <= row < m_pointRowCount p -> 0 <= col < m_pointColumnCount p ->
   exists p', setControlPoint row col point p = Some p'
     /\ valid p'
     /\ m_pointRowCount p' = m_pointRowCount p
     /\ m_pointColumnCount p' = m_pointColumnCount p
     /\ m_controlNormals p' = m_controlNormals p
     /\ m_bounds p' = computeBounds (m_controlPoints p')
     /\ controlPoint p' row col = Some point
     /\ forall r c, 0 <= r < m_pointRowCount p -> 0 <= c < m_pointColumnCount p ->
          (r, c) <> (row, col) -> controlPoint p' r c = controlPoint p r c)
  /\ (m_pointRowCount p <= row \/ m_pointColumnCount p <= col ->
      setControlPoint row col point p = None /\ controlPoint p row col = None).
Proof.
  intros Hv. split.
  - intros Hrow Hcol.
    destruct (cellIndex_small p row col Hv Hrow Hcol) as [Hi Hin].
    pose proof Hv as (Hr & Hc & Hro & Hco & Hb & Hlen & Hn).
    unfold Patch.setControlPoint.
    destruct (Z.ltb_spec row (m_pointRowCount p)); [| lia].
    destruct (Z.ltb_spec col (m_pointColumnCount p)); [| lia]. cbn [negb].
    unfold size in Hlen.
    destruct (Nat.ltb_spec (Z.to_nat (cellIndex p row col)) (length (m_controlPoints p)));
      [| lia]. cbn [negb].
    eexists. split; [reflexivity |].
    split.
    { unfold valid, size. cbn. rewrite length_insert. unfold size in Hn. tauto. }
    cbn. repeat split.
    + unfold controlPoint. cbn.
      destruct (Z.ltb_spec row (m_pointRowCount p)); [| lia].
      destruct (Z.ltb_spec col (m_pointColumnCount p)); [| lia]. cbn [negb].
      unfold at_, cellIndex. cbn. fold (cellIndex p row col).
      apply list_lookup_insert_eq. lia.
    + intros r c Hr' Hc' Hne. unfold controlPoint. cbn.
      destruct (Z.ltb_spec r (m_pointRowCount p)); [| lia].
      destruct (Z.ltb_spec c (m_pointColumnCount p)); [| lia]. cbn [negb].
      unfold at_, cellIndex at 1 3. cbn. fold (cellIndex p r c).
      apply list_lookup_insert_ne.
      destruct (cellIndex_small p r c Hv Hr' Hc') as [Hi' Hin'].
      rewrite Hi, Hi'. intros E. apply Z2Nat.inj in E; try lia.
      destruct (cellIndex_inj p row col r c ltac:(lia) ltac:(lia) E). congruence.
  - intros Hout. unfold Patch.setControlPoint, controlPoint.
    destruct (Z.ltb_spec row (m_pointRowCount p)); cbn [negb]; [| split; reflexivity].
    destruct (Z.ltb_spec col (m_pointColumnCount p)); cbn [negb]; [lia | split; reflexivity].
Qed.


Abbreviation make := (make (SurfaceValue := SurfaceValue) xyz builder_new builder_add builder_bounds).

(** X21. The constructor's contract: row or column counts that are not odd
    or not greater than two are refused; with such counts and as many
    control points as cells, the patch is built, valid, with bounds
    computed from the points, exactly when the normals are empty or as
    many as the points. *)
Theorem make_contract rows cols (cps : list Point) name contents flags
    (value : SurfaceValue) (normals : list Normal) :
  (rows <= 2 \/ cols <= 2 \/ rows mod 2 <> 1 \/ cols mod 2 <> 1 ->
   make rows cols cps name contents flags value normals = None)
  /\ (grid_dims rows cols (length cps) ->
      (normals = [] \/ length normals = length cps) ->
      exists p, make rows cols cps name contents flags value normals = Some p
        /\ valid p
        /\ m_pointRowCount p = rows /\ m_pointColumnCount p = cols
        /\ m_controlPoints p = cps /\ m_controlNormals p = normals
        /\ m_bounds p = computeBounds cps)
  /\ (grid_dims rows cols (length cps) ->
      normals <> [] -> length normals <> length cps ->
      make rows cols cps name contents flags value normals = None).
Proof.
  unfold Patch.make. split; [| split].
  - intros H.
    destruct (Z.ltb_spec 2 rows); cbn [andb negb]; [| reflexivity].
    destruct (Z.ltb_spec 2 cols); cbn [andb negb]; [| reflexivity].
    destruct (Z.eqb_spec (rows mod 2) 1); cbn [andb negb]; [| reflexivity].
    destruct (Z.eqb_spec (cols mod 2) 1); cbn [andb negb]; [| reflexivity].
    lia.
  - intros (Hr & Hc & Hro & Hco & Hb & Hlen) Hn.
    destruct (Z.ltb_spec 2 rows); [| lia]. destruct (Z.ltb_spec 2 cols); [| lia].
    rewrite Hro, Hco. cbn [andb negb Z.eqb Pos.eqb].
    unfold size, size_mul. rewrite size_wrap_small by nia.
    rewrite Hlen, Z.eqb_refl. cbn [negb].
    assert ((Z.of_nat (length normals) =? 0)
            || (Z.of_nat (length normals) =? rows * cols) = true) as ->.
    { destruct Hn as [-> | Hn]; [reflexivity |].
      rewrite Hn, Hlen, Z.eqb_refl. apply orb_true_r. }
    cbn [negb]. eexists. split; [reflexivity |].
    unfold valid, size. cbn. repeat split; try lia.
    destruct Hn as [-> | Hn]; [left; reflexivity | right; lia].
  - intros (Hr & Hc & Hro & Hco & Hb & Hlen) Hne Hl.
    destruct (Z.ltb_spec 2 rows); [| lia]. destruct (Z.ltb_spec 2 cols); [| lia].
    rewrite Hro, Hco. cbn [andb negb Z.eqb Pos.eqb].
    unfold size, size_mul. rewrite size_wrap_small by nia.
    rewrite Hlen, Z.eqb_refl. cbn [negb].
    destruct (Z.eqb_spec (Z.of_nat (length normals)) 0) as [E | _].
    { destruct normals; [congruence | cbn in E; lia]. }
    destruct (Z.eqb_spec (Z.of_nat (length normals)) (rows * cols)) as [E | _]; [lia |].
    reflexivity.
Qed.

End Facts.

Section EvaluateFacts.
Context {Point Normal BBox SurfaceValue : Type}.
Context (evaluate_points : @SurfaceControlPoints Point -> Q -> Q -> Point)
        (evaluate_normals : @SurfaceControlPoints Normal -> Q -> Q -> Normal).

Abbreviation BezierPatch := (@BezierPatch Point Normal BBox SurfaceValue).
Implicit Types p : BezierPatch.
Abbreviation evaluate := (evaluate (BBox := BBox) (SurfaceValue := SurfaceValue) evaluate_points).
Abbreviation evaluateNormals :=
  (evaluateNormals (BBox := BBox) (SurfaceValue := SurfaceValue) evaluate_normals).

Lemma valid_dims p : valid p -> grid_dims (m_pointRowCount p) (m_pointColumnCount p)
                                   (length (m_controlPoints p)).
Proof. unfold valid, grid_dims, size. tauto. Qed.


End EvaluateFacts.

Lemma valid_patch_3x3 : valid patch_3x3.
Proof.
  unfold valid, patch_3x3, size. cbn.
  repeat split; try lia; try (now vm_compute). left; reflexivity.
Qed.

Lemma setControlPoint_controlPoint_witness :
  exists p', Patch.setControlPoint (fun x : Z => x) [] (fun b v => v :: b) bounds_list
               1 1 42 patch_3x3 = Some p'
    /\ valid p' /\ controlPoint p' 1 1 = Some 42.
Proof.
  destruct (proj1 (setControlPoint_controlPoint (fun x : Z => x) []
                     (fun b v => v :: b) bounds_list patch_3x3 1 1 42
                     valid_patch_3x3) ltac:(cbn; lia) ltac:(cbn; lia))
    as (p' & H1 & H2 & _ & _ & _ & _ & H3 & _).
  exists p'. split; [exact H1 | split; [exact H2 | exact H3]].
Defined.

Lemma make_contract_witness :
  exists p, Patch.make (fun x : Z => x) [] (fun b v => v :: b) bounds_list
              3 3 [1; 2; 3; 4; 5; 6; 7; 8; 9] EmptyString 0 0 tt (@nil Z) = Some p
    /\ valid p.
Proof.
  destruct (proj1 (proj2 (make_contract (fun x : Z => x) []
                     (fun b v => v :: b) bounds_list 3 3 [1; 2; 3; 4; 5; 6; 7; 8; 9]
                     EmptyString 0 0 tt (@nil Z))) dims_3x3 (or_introl eq_refl))
    as (p & H1 & H2 & _).
  exists p. split; assumption.
Defined.


End PatchFacts.

(** ** Lines of a hotspot file *)

Module HotspotLineFacts.
Import Hotspot HotspotAux HotspotLineAux HotspotFacts.
Import Tok (TAB, LF, CR, DQUOTE, isAnyOf, isDigit).
Local Open Scope string_scope.
Local Open Scope nat_scope.

Lemma drop_length p s : String.length (str_drop_while p s) <= String.length s.
Proof.
  induction s as [| c r IH]; cbn [str_drop_while]; [lia |].
  destruct (p c); cbn [String.length] in *; lia.
Qed.

Lemma drop_head p s c r : str_drop_while p s = String.String c r -> p c = false.
Proof.
  induction s as [| d t IH]; cbn [str_drop_while]; [discriminate |].
  destruct (p d) eqn:E; [exact IH |]. intros [= <- _]. exact E.
Qed.

Lemma take_drop_append p s : str_take_while p s ++ str_drop_while p s = s.
Proof.
  induction s as [| c r IH]; cbn [str_take_while str_drop_while]; [reflexivity |].
  destruct (p c); [| apply append_nil_l]. rewrite append_cons. now rewrite IH.
Qed.

Lemma tokenizeLine_loop_rounds n m line :
  String.length line <= n -> String.length line <= m ->
  tokenizeLine_loop n line = tokenizeLine_loop m line.
Proof.
  revert m line. induction n as [| n IH]; intros m line Hn Hm.
  - destruct line; [| cbn in Hn; lia]. destruct m; reflexivity.
  - destruct m as [| m].
    { destruct line; [reflexivity | cbn in Hm; lia]. }
    cbn [tokenizeLine_loop].
    pose proof (drop_length isspace line) as Hl.
    destruct (str_drop_while isspace line) as [| c rest] eqn:E; [reflexivity |].
    cbn [String.length] in Hl.
    destruct (is_brace c) eqn:Hb.
    { f_equal. apply IH; lia. }
    destruct (Ascii.eqb c DQUOTE) eqn:Hq.
    { f_equal.
      pose proof (drop_length (fun x => negb (Ascii.eqb x DQUOTE)) rest) as Hd.
      destruct (str_drop_while _ rest) as [| a t]; cbn [String.length] in Hd;
        apply IH; cbn [String.length]; lia. }
    f_equal.
    pose proof (drop_head _ _ _ _ E) as Hs.
    cbn [str_drop_while]. rewrite Hs, Hb. cbn [negb andb].
    pose proof (drop_length (fun x => negb (isspace x) && negb (is_brace x)) rest).
    apply IH; lia.
Qed.

Lemma filter_drop_space s :
  str_filter notspace (str_drop_while isspace s) = str_filter notspace s.
Proof.
  induction s as [| c r IH]; cbn [str_drop_while str_filter]; [reflexivity |].
  unfold notspace at 2. destruct (isspace c) eqn:E; cbn [negb]; [exact IH |].
  cbn [str_filter]. unfold notspace at 1. now rewrite E.
Qed.

Lemma filter_append p s t : str_filter p (s ++ t) = str_filter p s ++ str_filter p t.
Proof.
  induction s as [| c r IH]; [now rewrite !append_nil_l |].
  rewrite append_cons. cbn [str_filter]. destruct (p c); [| exact IH].
  now rewrite append_cons, IH.
Qed.

Lemma all_take p q s :
  (forall c, p c = true -> q c = true) -> str_all q (str_take_while p s) = true.
Proof.
  intros H. induction s as [| c r IH]; cbn [str_take_while]; [reflexivity |].
  destruct (p c) eqn:E; [| reflexivity]. cbn [str_all]. now rewrite (H c E), IH.
Qed.

Lemma filter_all p s : str_all p s = true -> str_filter p s = s.
Proof.
  induction s as [| c r IH]; cbn [str_all str_filter]; [reflexivity |].
  intros [Hc Hr]%andb_true_iff. rewrite Hc. now rewrite IH.
Qed.

Lemma all_no_char p c s : p c = false -> str_all p s = true -> has_char c s = false.
Proof.
  intros Hc. induction s as [| d r IH]; cbn [str_all has_char]; [reflexivity |].
  intros [Hd Hr]%andb_true_iff. rewrite (IH Hr), orb_false_r.
  destruct (Ascii.eqb_spec d c); [congruence | reflexivity].
Qed.

Lemma brace_notspace c : is_brace c = true -> notspace c = true.
Proof.
  unfold is_brace. intros [H | H]%orb_true_iff; apply Ascii.eqb_eq in H; now subst.
Qed.


Lemma tokenizeLine_loop_plain n line :
  has_char DQUOTE line = false -> String.length line <= n ->
  Forall plain_token (tokenizeLine_loop n line)
  /\ concat_tokens (tokenizeLine_loop n line) = str_filter notspace line.
Proof.
  revert line. induction n as [| n IH]; intros line Hq Hn.
  { destruct line; [| cbn in Hn; lia]. split; [constructor | reflexivity]. }
  cbn [tokenizeLine_loop]. rewrite <- filter_drop_space.
  pose proof (drop_length isspace line) as Hl.
  pose proof (has_char_drop DQUOTE isspace line Hq) as Hq1.
  destruct (str_drop_while isspace line) as [| c rest] eqn:E;
    [split; [constructor | reflexivity] |].
  cbn [String.length] in Hl. pose proof (drop_head _ _ _ _ E) as Hs.
  cbn [has_char] in Hq1. apply orb_false_iff in Hq1 as [Hcq Hrq].
  destruct (is_brace c) eqn:Hb.
  - destruct (IH rest Hrq ltac:(lia)) as [IH1 IH2]. split.
    + constructor; [| exact IH1]. unfold plain_token. split; [discriminate |]. split.
      * cbn [str_all]. now rewrite (brace_notspace c Hb).
      * left. unfold is_brace in Hb. unfold isBraceToken.
        apply orb_true_iff in Hb as [H | H]; apply Ascii.eqb_eq in H; subst; reflexivity.
    + cbn [concat_tokens fold_right]. fold (concat_tokens (tokenizeLine_loop n rest)).
      rewrite IH2. cbn [str_filter]. rewrite (brace_notspace c Hb).
      rewrite append_cons. now rewrite append_nil_l.
  - rewrite Hcq.
    set (word := fun x => negb (isspace x) && negb (is_brace x)).
    assert (Hw : word c = true) by (unfold word; now rewrite Hs, Hb).
    assert (Hword : forall x, word x = true -> notspace x = true).
    { intros x. unfold word, notspace. now intros [H _]%andb_true_iff. }
    pose proof (drop_length word rest) as Hd.
    assert (Hq2 : has_char DQUOTE (str_drop_while word (String.String c rest)) = false).
    { apply has_char_drop. cbn [has_char]. now rewrite Hcq, Hrq. }
    assert (Hlen : String.length (str_drop_while word (String.String c rest)) <= n).
    { cbn [str_drop_while]. rewrite Hw. lia. }
    destruct (IH _ Hq2 Hlen) as [IH1 IH2]. split.
    + constructor; [| exact IH1]. unfold plain_token. split; [| split].
      * cbn [str_take_while]. now rewrite Hw.
      * now apply all_take.
      * right. split; apply (all_no_char (fun x => negb (is_brace x)));
          try reflexivity; apply all_take; intros x; unfold word;
          now intros [_ H]%andb_true_iff.
    + cbn [concat_tokens fold_right].
      fold (concat_tokens (tokenizeLine_loop n (str_drop_while word (String.String c rest)))).
      rewrite IH2.
      rewrite <- (take_drop_append word (String.String c rest)) at 3.
      rewrite filter_append. f_equal. symmetry. apply filter_all. now apply all_take.
Qed.

(** X23. The rounds tokenizeLine is given are enough for every line.  The
    tokens of a line without quotation marks are not empty and hold no white
    space, each is one brace or holds no brace, and written one after the
    other they are the line without its white space. *)
Theorem tokenizeLine_plain line :
  (forall n, String.length line <= n -> tokenizeLine_loop n line = tokenizeLine line)
  /\ (has_char DQUOTE line = false ->
      Forall plain_token (tokenizeLine line)
      /\ concat_tokens (tokenizeLine line) = str_filter notspace line).
Proof.
  split.
  - intros n Hn. unfold tokenizeLine. apply tokenizeLine_loop_rounds; lia.
  - intros Hq. unfold tokenizeLine. now apply tokenizeLine_loop_plain.
Qed.

Lemma tokenizeLine_plain_witness :
  Forall plain_token (tokenizeLine "foo{ 0 0 32 32 }")
  /\ concat_tokens (tokenizeLine "foo{ 0 0 32 32 }")
     = str_filter notspace "foo{ 0 0 32 32 }".
Proof.
  apply (proj2 (tokenizeLine_plain "foo{ 0 0 32 32 }")). reflexivity.
Defined.

Lemma updateScopes_plain prev (pre rest : list string) stack pending :
  Forall (fun t => isBraceToken t = false) pre ->
  updateScopes prev (pre ++ rest)%list stack pending
  = updateScopes (match last pre with Some t => Some t | None => prev end)
      rest stack pending.
Proof.
  intros H. revert prev. induction H as [| t ts Ht _ IH]; intros prev; [reflexivity |].
  cbn [app updateScopes]. unfold isBraceToken in Ht.
  apply orb_false_iff in Ht as [-> ->]. cbn [andb]. rewrite IH.
  destruct ts as [| u us]; [reflexivity |].
  change (last (t :: u :: us)) with (last (u :: us)).
  destruct (last (u :: us)) eqn:E; [reflexivity | apply last_None in E; discriminate].
Qed.

Lemma updateScopes_block prev (pre mid : list string) stack pending :
  Forall (fun t => isBraceToken t = false) pre ->
  Forall (fun t => isBraceToken t = false) mid ->
  updateScopes prev (pre ++ "{" :: mid ++ ["}"])%list stack pending = (stack, None).
Proof.
  intros Hpre Hmid. rewrite (updateScopes_plain _ _ _ _ _ Hpre).
  cbn [updateScopes String.eqb Ascii.eqb Bool.eqb].
  rewrite (updateScopes_plain _ _ _ _ _ Hmid).
  cbn [updateScopes String.eqb Ascii.eqb Bool.eqb andb].
  rewrite length_app. cbn [length]. rewrite Nat.add_1_r. cbn [Nat.eqb negb].
  now rewrite removelast_last.
Qed.

Section OneLine.
Variable str_to_float : string -> option float.

(** X24. A block that opens and closes on one line is closed again before
    the numbers of the line are read: the line leaves the scopes as they
    were and clears the pending name; without an enclosing texture scope
    and without a default name it adds no rectangle, and in any case it
    adds none under another name than the enclosing one. *)
Theorem parseLine_one_line_block defaultTextureName st rawLine (pre mid : list string) :
  tokenizeLine (trim (stripComments rawLine)) = (pre ++ "{" :: mid ++ ["}"])%list ->
  Forall (fun t => isBraceToken t = false) pre ->
  Forall (fun t => isBraceToken t = false) mid ->
  (currentTextureName (scopeStack st) = None -> defaultTextureName = None ->
   parseLine str_to_float defaultTextureName st rawLine
   = Returned (mkParseState (result st) (scopeStack st) None))
  /\ (forall st', parseLine str_to_float defaultTextureName st rawLine = Returned st' ->
      scopeStack st' = scopeStack st /\ pendingBlockName st' = None
      /\ forall name,
           Some name <> match currentTextureName (scopeStack st) with
                        | Some n => Some n
                        | None => defaultTextureName
                        end ->
           result st' !! name = result st !! name).
Proof.
  intros Htok Hpre Hmid. unfold parseLine.
  destruct (String.eqb_spec (trim (stripComments rawLine)) EmptyString) as [E | _].
  { rewrite E in Htok. destruct pre; discriminate. }
  rewrite Htok, (updateScopes_block _ _ _ _ _ Hpre Hmid).
  assert (Hpend : match (pre ++ "{" :: mid ++ ["}"])%list with
                  | [front] =>
                      if negb (String.eqb front "{") && negb (String.eqb front "}")
                      then match str_to_float front with
                           | Some _ => None
                           | None => Some front
                           end
                      else None
                  | _ => @None string
                  end = None).
  { destruct pre as [| a [| b pre']]; cbn [app]; try reflexivity;
      destruct mid; reflexivity. }
  rewrite Hpend. split.
  - intros -> ->. reflexivity.
  - intros st'.
    destruct (match currentTextureName (scopeStack st) with
              | Some n => Some n
              | None => defaultTextureName
              end) as [name |]; [| intros [= <-]; auto].
    destruct (parseNumbers _) as [[| x [| y [| w [| h tl]]]] | e];
      try (intros [= <-]; auto); try discriminate.
    destruct (fle0 w || fle0 h); intros [= <-]; cbn; [auto |].
    repeat split. intros name' Hne. apply lookup_insert_ne. congruence.
Qed.

End OneLine.

Lemma parseLine_one_line_block_witness :
  parseLine str_to_float_decimal None (mkParseState ∅ [] None) "foo { 0 0 32 32 }"
  = Returned (mkParseState ∅ [] None).
Proof.
  apply (proj1 (parseLine_one_line_block str_to_float_decimal None
                  (mkParseState ∅ [] None) "foo { 0 0 32 32 }"
                  ["foo"] ["0"; "0"; "32"; "32"] eq_refl
                  ltac:(repeat constructor) ltac:(repeat constructor)));
    reflexivity.
Defined.

Lemma tolower_eq_sign c : Ascii.eqb (tolower c) "=" = Ascii.eqb c "=".
Proof.
  destruct c as [b0 b1 b2 b3 b4 b5 b6 b7].
  destruct b0, b1, b2, b3, b4, b5, b6, b7; reflexivity.
Qed.

Lemma has_char_toLower s : has_char "=" (toLower s) = has_char "=" s.
Proof.
  induction s as [| c r IH]; [reflexivity |].
  cbn [toLower has_char]. now rewrite tolower_eq_sign, IH.
Qed.

Lemma index_no_char c s n :
  has_char c s = false -> String.index n (String.String c EmptyString) s = None.
Proof.
  revert n. induction s as [| d r IH]; intros n; cbn [has_char].
  - intros _. destruct n; reflexivity.
  - intros [Hd Hr]%orb_false_iff.
    assert (c <> d) by (intros ->; now rewrite Ascii.eqb_refl in Hd).
    destruct n as [| n]; cbn [String.index String.prefix].
    + destruct (ascii_dec c d); [contradiction |]. now rewrite (IH 0 Hr).
    + now rewrite (IH n Hr).
Qed.

Section Weight.
Variable str_to_float : string -> option float.

Lemma weightKey_no_token t :
  isWeightKey t = true -> parseWeightToken str_to_float t = None.
Proof.
  intros H. unfold parseWeightToken.
  rewrite (index_no_char "=" t 0); [reflexivity |].
  rewrite <- has_char_toLower. unfold isWeightKey in H.
  apply orb_true_iff in H as [H | H]; apply String.eqb_eq in H; now rewrite H.
Qed.

Lemma parseWeight_skip pre rest :
  Forall (fun t => parseWeightToken str_to_float t = None /\ isWeightKey t = false) pre ->
  parseWeight str_to_float (pre ++ rest) = parseWeight str_to_float rest.
Proof.
  induction 1 as [| t ts [Ht Hk] _ IH]; [reflexivity |].
  cbn [app parseWeight]. rewrite Ht. unfold isWeightKey in Hk. now rewrite Hk.
Qed.

(** X25. parseWeight passes over the tokens that neither give a weight nor
    are a weight key: without any other token the weight is 1; the first
    token of the form key=value with a number gives the weight, and so
    does a weight key followed by a number; a weight key as the last token
    gives 1. *)
Theorem parseWeight_first pre t next rest v :
  Forall (fun t => parseWeightToken str_to_float t = None /\ isWeightKey t = false) pre ->
  parseWeight str_to_float pre = 1%Q
  /\ (parseWeightToken str_to_float t = Some v ->
      parseWeight str_to_float (pre ++ t :: rest) = v)
  /\ (isWeightKey t = true -> str_to_float next = Some v ->
      parseWeight str_to_float (pre ++ t :: next :: rest) = v)
  /\ (isWeightKey t = true -> parseWeight str_to_float (pre ++ [t]) = 1%Q).
Proof.
  intros Hpre. split; [| split; [| split]].
  - rewrite <- (app_nil_r pre). now rewrite (parseWeight_skip _ _ Hpre).
  - intros Ht. rewrite (parseWeight_skip _ _ Hpre). cbn [parseWeight]. now rewrite Ht.
  - intros Hk Hn. rewrite (parseWeight_skip _ _ Hpre). cbn [parseWeight].
    rewrite (weightKey_no_token t Hk). unfold isWeightKey in Hk. now rewrite Hk, Hn.
  - intros Hk. rewrite (parseWeight_skip _ _ Hpre). cbn [parseWeight].
    rewrite (weightKey_no_token t Hk). unfold isWeightKey in Hk. now rewrite Hk.
Qed.

End Weight.

Lemma parseWeight_first_witness :
  parseWeight str_to_float_decimal ["0"; "0"; "32"; "32"; "Weight"; "2"] = 2%Q.
Proof.
  apply (proj1 (proj2 (proj2
           (parseWeight_first str_to_float_decimal ["0"; "0"; "32"; "32"]
              "Weight" "2" [] 2%Q ltac:(repeat constructor))))); reflexivity.
Defined.

Lemma currentTextureName_scope stack name :
  currentTextureName stack = Some name -> isTextureScope name = true.
Proof.
  unfold currentTextureName, isTextureScope. intros H.
  now apply find_some in H as [_ H].
Qed.


Section Rects.
Variable str_to_float : string -> option float.

Lemma parseLine_rects d st l st' :
  rects_ok d (result st) -> parseLine str_to_float d st l = Returned st' ->
  rects_ok d (result st').
Proof.
  intros Hok. unfold parseLine.
  destruct (String.eqb _ EmptyString); [now intros [= <-] |].
  destruct (updateScopes _ _ _ _) as [stack pending0].
  destruct (match currentTextureName stack with
            | Some n => Some n
            | None => d
            end) as [name |] eqn:Hname; [| now intros [= <-]].
  destruct (parseNumbers _) as [[| x [| y [| w [| h tl]]]] | e];
    try (now intros [= <-]); try discriminate.
  destruct (fle0 w) eqn:Hw; cbn [orb]; [now intros [= <-] |].
  destruct (fle0 h) eqn:Hh; [now intros [= <-] |].
  intros [= <-]. cbn [result]. intros name' rects.
  destruct (decide (name' = name)) as [-> | Hne].
  - rewrite lookup_insert_eq. intros [= <-]. split; [| split].
    + now destruct (default [] (result st !! name)).
    + apply Forall_app. split.
      * destruct (result st !! name) as [old |] eqn:E; [| constructor].
        cbn. now apply (Hok name old E).
      * constructor; [| constructor]. unfold positive_size, fle0 in *. cbn.
        split; apply Qnot_le_lt; intros Hle; apply Qle_bool_iff in Hle; congruence.
    + destruct (currentTextureName stack) as [n |] eqn:Hc.
      * injection Hname as ->. right. now apply (currentTextureName_scope stack).
      * now left.
  - rewrite lookup_insert_ne by congruence. apply Hok.
Qed.

Lemma parseLines_rects d ls st st' :
  rects_ok d (result st) -> parseLines str_to_float d st ls = Returned st' ->
  rects_ok d (result st').
Proof.
  revert st. induction ls as [| l ls IH]; intros st Hok; cbn [parseLines].
  - now intros [= <-].
  - destruct (parseLine str_to_float d st l) as [st1 | e] eqn:E; [| discriminate].
    apply IH. now apply (parseLine_rects d st l).
Qed.

(** X26. Every list of rectangles in the result of parseHotspotRectFile is
    filed under the default name or under a name that is neither empty nor
    a rectangles keyword, is not empty, and holds only rectangles of
    positive width and height. *)
Theorem parseHotspotRectFile_rects contents defaultTextureName m name rects :
  parseHotspotRectFile str_to_float contents defaultTextureName = Returned (Success m) ->
  m !! name = Some rects ->
  rects <> [] /\ Forall positive_size rects
  /\ (defaultTextureName = Some name \/ isTextureScope name = true).
Proof.
  unfold parseHotspotRectFile.
  destruct (parseLines _ _ _ _) as [st | e] eqn:E; [| discriminate].
  intros [= <-]. apply (parseLines_rects _ _ _ _) with (2 := E).
  intros n r H. cbn [result] in H. rewrite lookup_empty in H. discriminate.
Qed.

End Rects.

Lemma parseHotspotRectFile_rects_witness :
  [block_rect] <> [] /\ Forall positive_size [block_rect]
  /\ (None = Some "foo" \/ isTextureScope "foo" = true).
Proof.
  apply (parseHotspotRectFile_rects str_to_float_decimal block_text None
           (<["foo" := [block_rect]]> ∅) "foo" [block_rect]);
    [vm_compute; reflexivity | reflexivity].
Defined.

End HotspotLineFacts.

(** ** BezierPatch::transform *)

Module PatchTransformFacts.
Import PatchResize Patch PatchAux PatchTransform PatchTransformAux PatchFacts.

Lemma for_each_index_inv {St} (body : St -> Z -> option St) (I : Z -> St -> Prop) n s0 :
  0 <= n -> I 0 s0 ->
  (forall j s, 0 <= j < n -> I j s -> exists s', body s j = Some s' /\ I (j + 1) s') ->
  exists s', for_each_index n body s0 = Some s' /\ I n s'.
Proof.
  intros Hn H0 Hstep. unfold for_each_index.
  assert (G : forall m a s, (a + m <= Z.to_nat n)%nat -> I (Z.of_nat a) s ->
            exists s', fold_left (fun st i => st ≫= fun s' => body s' (Z.of_nat i))
                         (seq a m) (Some s) = Some s'
                       /\ I (Z.of_nat (a + m)) s').
  { induction m as [| m IH]; intros a s Ha Hs.
    - exists s. rewrite Nat.add_0_r. split; [reflexivity | exact Hs].
    - cbn [seq fold_left mbind option_bind].
      destruct (Hstep (Z.of_nat a) s ltac:(lia) Hs) as (s1 & -> & H1).
      replace (Z.of_nat a + 1) with (Z.of_nat (S a)) in H1 by lia.
      destruct (IH (S a) s1 ltac:(lia) H1) as (s' & E & H').
      exists s'. split; [exact E |]. now replace (a + S m)%nat with (S a + m)%nat by lia. }
  destruct (G (Z.to_nat n) 0%nat s0 ltac:(lia) H0) as (s' & E & H').
  exists s'. split; [exact E |]. now rewrite Nat.add_0_l, Z2Nat.id in H' by lia.
Qed.

Section Grid.
Context {A : Type}.
Variables rows cols : Z.
Hypothesis Hrows : 0 < rows.
Hypothesis Hcols : 0 < cols.

Lemma swapAt_rel f (l0 l : list A) j k d :
  Z.of_nat (length l0) = rows * cols ->
  grid_rel rows cols f l0 l -> 0 <= j < rows -> 0 <= k < cols -> 0 <= d < cols ->
  exists l', swapAt l (j * cols + k) (j * cols + d) = Some l'
    /\ grid_rel rows cols (swapped f j k d) l0 l'.
Proof.
  intros Hlen [Hl Hrel] Hj Hk Hd. unfold swapAt, at_.
  assert (Hin : forall r c, 0 <= r < rows -> 0 <= c < cols ->
            (Z.to_nat (r * cols + c) < length l)%nat) by (intros; nia).
  destruct (lookup_lt_is_Some_2 l _ (Hin j k Hj Hk)) as [x Hx].
  destruct (lookup_lt_is_Some_2 l _ (Hin j d Hj Hd)) as [y Hy].
  rewrite Hx, Hy. eexists. split; [reflexivity |]. split.
  { now rewrite !length_insert. }
  intros r c Hr Hc. unfold swapped, at_.
  destruct (decide (r = j /\ c = d)) as [[-> ->] | N1].
  - rewrite list_lookup_insert_eq by (rewrite length_insert; now apply Hin).
    rewrite <- Hx. apply (Hrel j k Hj Hk).
  - rewrite list_lookup_insert_ne.
    2:{ intros E. apply Z2Nat.inj in E; try nia. apply N1. assert (r = j) by nia. subst. lia. }
    destruct (decide (r = j /\ c = k)) as [[-> ->] | N2].
    + rewrite list_lookup_insert_eq by now apply Hin.
      rewrite <- Hy. apply (Hrel j d Hj Hd).
    + rewrite list_lookup_insert_ne.
      2:{ intros E. apply Z2Nat.inj in E; try nia. apply N2. assert (r = j) by nia. subst. lia. }
      apply (Hrel r c Hr Hc).
Qed.

Lemma grid_rel_ext f g (l0 l : list A) :
  (forall r c, 0 <= r < rows -> 0 <= c < cols -> f r c = g r c) ->
  grid_rel rows cols f l0 l -> grid_rel rows cols g l0 l.
Proof.
  intros E [Hl H]. split; [exact Hl |]. intros r c Hr Hc. rewrite <- E by assumption.
  now apply H.
Qed.

End Grid.

Lemma grid_rel_nil {A} rows cols f (l0 l : list A) :
  l0 = [] -> length l = length l0 -> grid_rel rows cols f l0 l.
Proof.
  intros -> Hl. destruct l; [| discriminate]. split; [reflexivity |].
  intros r c _ _. reflexivity.
Qed.

Section Rel.
Context {Point Normal BBox SurfaceValue : Type}.

Abbreviation BezierPatch := (@BezierPatch Point Normal BBox SurfaceValue).
Implicit Types p : BezierPatch.

Lemma cellIndex_eq p r c :
  m_pointRowCount p * m_pointColumnCount p < 2 ^ size_bits ->
  0 <= r < m_pointRowCount p -> 0 <= c < m_pointColumnCount p ->
  cellIndex p r c = r * m_pointColumnCount p + c.
Proof.
  intros Hb Hr Hc. unfold cellIndex, size_add, size_mul.
  rewrite (size_wrap_small (r * _)) by nia. apply size_wrap_small. nia.
Qed.

Lemma swapCells_rel f p0 p j k d :
  valid p0 -> patch_rel f p0 p ->
  0 <= j < m_pointRowCount p0 ->
  0 <= k < m_pointColumnCount p0 -> 0 <= d < m_pointColumnCount p0 ->
  exists p', swapCells k d p j = Some p' /\ patch_rel (swapped f j k d) p0 p'.
Proof.
  intros (Hr & Hc & _ & _ & Hb & Hlen & Hn)
         (Er & Ec & Eb & En & Es & Ef & Ev & Hp & Hq) Hj Hk Hd.
  unfold size in *.
  assert (Ik : cellIndex p j k = j * m_pointColumnCount p0 + k).
  { rewrite <- Ec. apply cellIndex_eq; rewrite ?Er, ?Ec; lia. }
  assert (Id : cellIndex p j d = j * m_pointColumnCount p0 + d).
  { rewrite <- Ec. apply cellIndex_eq; rewrite ?Er, ?Ec; lia. }
  destruct (swapAt_rel (m_pointRowCount p0) (m_pointColumnCount p0)
              ltac:(lia) ltac:(lia) f _ _ j k d Hlen Hp Hj Hk Hd)
    as (points & Hsw & Hp').
  unfold swapCells, controlPoint, controlNormal.
  rewrite Er, Ec.
  destruct (Z.ltb_spec j (m_pointRowCount p0)); [| lia].
  destruct (Z.ltb_spec k (m_pointColumnCount p0)); [| lia].
  destruct (Z.ltb_spec d (m_pointColumnCount p0)); [| lia]. cbn [negb].
  rewrite Ik, Id, Hsw.
  pose proof Hsw as Hsw'. unfold swapAt in Hsw'.
  destruct (at_ (m_controlPoints p) _); [| discriminate].
  destruct (at_ (m_controlPoints p) _); [| discriminate].
  cbn [m_controlNormals m_pointRowCount m_pointColumnCount m_controlPoints m_bounds
       m_materialName m_surfaceContents m_surfaceFlags m_surfaceValue].
  unfold size.
  destruct (Z.eqb_spec (Z.of_nat (length (m_controlNormals p))) 0) as [E0 | N0].
  - eexists. split; [reflexivity |].
    unfold patch_rel. cbn. repeat split; try assumption; try apply Hp'.
    + destruct Hq as [Hq _]. rewrite Hq. reflexivity.
    + apply grid_rel_nil; [| apply Hq].
      destruct Hq as [Hq _]. destruct (m_controlNormals p0); [reflexivity |].
      cbn in Hq. lia.
  - rewrite ?Er, ?Ec.
    destruct (Z.ltb_spec j (m_pointRowCount p0)); [| lia].
    destruct (Z.ltb_spec k (m_pointColumnCount p0)); [| lia].
    destruct (Z.ltb_spec d (m_pointColumnCount p0)); [| lia]. cbn [negb].
    assert (Hnl : Z.of_nat (length (m_controlNormals p0))
                  = m_pointRowCount p0 * m_pointColumnCount p0).
    { destruct Hn as [E | E]; [| exact E]. destruct Hq as [Hq _].
      rewrite E in Hq. cbn in Hq. lia. }
    destruct (swapAt_rel (m_pointRowCount p0) (m_pointColumnCount p0)
              ltac:(lia) ltac:(lia) f _ _ j k d Hnl Hq Hj Hk Hd)
      as (normals & Hsn & Hq').
    unfold cellIndex in *. rewrite Ec in Ik, Id.
    cbn [m_controlNormals m_pointRowCount m_pointColumnCount m_controlPoints m_bounds
         m_materialName m_surfaceContents m_surfaceFlags m_surfaceValue].
    rewrite Ik, Id, Hsn.
    pose proof Hsn as Hsn'. unfold swapAt in Hsn'.
    destruct (at_ (m_controlNormals p) _); [| discriminate].
    destruct (at_ (m_controlNormals p) _); [| discriminate].
    eexists. split; [reflexivity |].
    unfold patch_rel. cbn. repeat split; try assumption; try apply Hp'; apply Hq'.
Qed.

End Rel.

Section TransformFacts.
Context {Point Normal Vec3 BBox Builder SurfaceValue Mat : Type}.
Context (xyz : Point -> Vec3) (builder_new : Builder)
        (builder_add : Builder -> Vec3 -> Builder) (builder_bounds : Builder -> BBox)
        (transform_point : Mat -> Point -> Point)
        (transform_normal : Mat -> Normal -> Normal)
        (is_zero : Normal -> bool)
        (is_orientation_preserving_transform : Mat -> bool).

Abbreviation BezierPatch := (@BezierPatch Point Normal BBox SurfaceValue).
Abbreviation computeBounds := (computeBounds xyz builder_new builder_add builder_bounds).
Abbreviation transformControlPoints :=
  (transformControlPoints xyz builder_new builder_add transform_point).
Abbreviation transformControlNormal :=
  (transformControlNormal transform_normal is_zero).
Abbreviation transform :=
  (transform (SurfaceValue := SurfaceValue) xyz builder_new builder_add builder_bounds
     transform_point transform_normal is_zero is_orientation_preserving_transform).

Implicit Types p : BezierPatch.

Lemma patch_rel_ext f g p0 p :
  (forall r c, 0 <= r < m_pointRowCount p0 -> 0 <= c < m_pointColumnCount p0 ->
     f r c = g r c) ->
  patch_rel f p0 p -> patch_rel g p0 p.
Proof.
  intros E (Er & Ec & Eb & En & Es & Ef & Ev & Hp & Hq).
  unfold patch_rel. repeat split; try assumption;
    try apply (grid_rel_ext _ _ f g _ _ E Hp); apply (grid_rel_ext _ _ f g _ _ E Hq).
Qed.

Lemma mirrorColumn_rel p0 p k :
  valid p0 -> patch_rel (mirrored (m_pointColumnCount p0) k 0) p0 p ->
  0 <= k -> 2 * k + 1 < m_pointColumnCount p0 ->
  exists p', mirrorColumn p k = Some p'
    /\ patch_rel (mirrored (m_pointColumnCount p0) (k + 1) 0) p0 p'.
Proof.
  intros Hv Hrel Hk Hk2. pose proof Hv as (Hr & Hc & _ & _ & Hb & _).
  pose proof Hrel as (Er & Ec & _).
  unfold mirrorColumn. rewrite Er, Ec.
  assert (Ed : size_sub (size_sub (m_pointColumnCount p0) k) 1
               = m_pointColumnCount p0 - 1 - k).
  { unfold size_sub. rewrite (size_wrap_small (_ - k)) by nia.
    rewrite size_wrap_small by nia. lia. }
  rewrite Ed.
  destruct (for_each_index_inv
              (swapCells k (m_pointColumnCount p0 - 1 - k))
              (fun j s => patch_rel (mirrored (m_pointColumnCount p0) k j) p0 s)
              (m_pointRowCount p0) p ltac:(lia) Hrel) as (p' & E & H').
  { intros j s Hj Hs.
    destruct (swapCells_rel _ p0 s j k (m_pointColumnCount p0 - 1 - k)
                Hv Hs Hj ltac:(lia) ltac:(lia)) as (s' & Es & Hs').
    exists s'. split; [exact Es |].
    apply (patch_rel_ext _ _ _ _) with (2 := Hs').
    intros r c Hr' Hc'. unfold swapped, mirrored.
    repeat case_decide; lia. }
  exists p'. split; [exact E |].
  apply (patch_rel_ext _ _ _ _) with (2 := H').
  intros r c Hr' Hc'. unfold mirrored. repeat case_decide; lia.
Qed.

Lemma transformControlPoints_map m (points : list Point) :
  transformControlPoints m points
  = (map (transform_point m) points,
     fold_left (fun builder point => builder_add builder (xyz point))
       (map (transform_point m) points) builder_new).
Proof.
  unfold PatchTransform.transformControlPoints.
  assert (G : forall l acc b,
    fold_left
      (fun '(done, builder) controlPoint =>
         let controlPoint' := transform_point m controlPoint in
         (done ++ [controlPoint'], builder_add builder (xyz controlPoint')))
      l (acc, b)
    = (acc ++ map (transform_point m) l,
       fold_left (fun builder point => builder_add builder (xyz point))
         (map (transform_point m) l) b)).
  { induction l as [| x l IH]; intros acc b; cbn [fold_left map].
    - now rewrite app_nil_r.
    - rewrite IH. now rewrite <- app_assoc. }
  now rewrite G.
Qed.

Lemma cell_at p r c :
  m_pointRowCount p * m_pointColumnCount p < 2 ^ size_bits ->
  0 <= r < m_pointRowCount p -> 0 <= c < m_pointColumnCount p ->
  controlPoint p r c = at_ (m_controlPoints p) (r * m_pointColumnCount p + c)
  /\ controlNormal p r c = at_ (m_controlNormals p) (r * m_pointColumnCount p + c).
Proof.
  intros Hb Hr Hc. unfold controlPoint, controlNormal.
  destruct (Z.ltb_spec r (m_pointRowCount p)); [| lia].
  destruct (Z.ltb_spec c (m_pointColumnCount p)); [| lia]. cbn [negb].
  rewrite (cellIndex_eq p r c Hb Hr Hc). split; [reflexivity |].
  unfold size. destruct (Z.eqb_spec (Z.of_nat (length (m_controlNormals p))) 0) as [E | _];
    [| reflexivity].
  destruct (m_controlNormals p); [reflexivity | cbn in E; lia].
Qed.

(** X27. On a valid patch, transform succeeds and keeps the patch valid
    with its dimensions and surface attributes; the bounds are those of the
    images of the control points; under an orientation preserving
    transformation every cell holds the image of its former control point
    and normal, and under any other transformation the image of those of
    the mirrored column of the same row. *)
Theorem transform_mirrors_columns m p :
  valid p ->
  exists p', transform m p = Some p'
    /\ valid p'
    /\ m_pointRowCount p' = m_pointRowCount p
    /\ m_pointColumnCount p' = m_pointColumnCount p
    /\ length (m_controlNormals p') = length (m_controlNormals p)
    /\ m_bounds p' = computeBounds (map (transform_point m) (m_controlPoints p))
    /\ forall r c, 0 <= r < m_pointRowCount p -> 0 <= c < m_pointColumnCount p ->
         let c0 := if is_orientation_preserving_transform m then c
                   else m_pointColumnCount p - 1 - c in
         controlPoint p' r c = option_map (transform_point m) (controlPoint p r c0)
         /\ controlNormal p' r c
            = option_map (transformControlNormal m) (controlNormal p r c0).
Proof.
  intros Hv. pose proof Hv as (Hr & Hc & Hro & Hco & Hb & Hlen & Hn).
  unfold PatchTransform.transform. rewrite transformControlPoints_map.
  assert (En : (if negb (size (m_controlNormals p) =? 0)
                then map (transformControlNormal m) (m_controlNormals p)
                else m_controlNormals p)
               = map (transformControlNormal m) (m_controlNormals p)).
  { destruct (Z.eqb_spec (size (m_controlNormals p)) 0) as [E | _]; [| reflexivity].
    cbn [negb]. unfold size in E.
    destruct (m_controlNormals p); [reflexivity | cbn in E; lia]. }
  rewrite En. clear En.
  set (p1 := mkBezierPatch _ _ _ _ _ _ _ _ _).
  assert (Hv1 : valid p1).
  { unfold valid, size, p1. cbn. rewrite !length_map. unfold size in *.
    repeat split; try assumption.
    destruct Hn as [-> | Hn]; [left; reflexivity | right; exact Hn]. }
  assert (Hfinal : forall p' (f : Z -> Z -> Z),
    patch_rel f p1 p' ->
    (forall r c, 0 <= r < m_pointRowCount p -> 0 <= c < m_pointColumnCount p ->
       0 <= f r c < m_pointColumnCount p
       /\ f r c = if is_orientation_preserving_transform m then c
                  else m_pointColumnCount p - 1 - c) ->
    valid p'
    /\ m_pointRowCount p' = m_pointRowCount p
    /\ m_pointColumnCount p' = m_pointColumnCount p
    /\ length (m_controlNormals p') = length (m_controlNormals p)
    /\ m_bounds p' = computeBounds (map (transform_point m) (m_controlPoints p))
    /\ forall r c, 0 <= r < m_pointRowCount p -> 0 <= c < m_pointColumnCount p ->
         let c0 := if is_orientation_preserving_transform m then c
                   else m_pointColumnCount p - 1 - c in
         controlPoint p' r c = option_map (transform_point m) (controlPoint p r c0)
         /\ controlNormal p' r c
            = option_map (transformControlNormal m) (controlNormal p r c0)).
  { intros p' f (Er & Ec & Eb & _ & _ & _ & _ & [Lp Hp] & [Lq Hq]) Hf.
    cbn [p1 m_pointRowCount m_pointColumnCount m_controlPoints m_controlNormals m_bounds]
      in Er, Ec, Eb, Lp, Hp, Lq, Hq.
    rewrite length_map in Lp, Lq.
    split; [| split; [exact Er | split; [exact Ec | split; [exact Lq | split; [exact Eb |]]]]].
    { unfold valid, size in *. rewrite Er, Ec, Lp, Lq. repeat split; try assumption.
      destruct Hn as [E | Hn]; [left | right; exact Hn].
      rewrite E in Lq. now destruct (m_controlNormals p'). }
    intros r c Hr' Hc' c0.
    destruct (Hf r c Hr' Hc') as [Hrange Hfc]. fold c0 in Hfc.
    destruct (cell_at p' r c) as [-> ->]; rewrite ?Er, ?Ec; try lia.
    destruct (cell_at p r c0) as [-> ->]; try lia.
    rewrite (Hp r c Hr' Hc'), (Hq r c Hr' Hc'), Hfc.
    unfold at_. now rewrite !list_lookup_fmap. }
  assert (Hrefl : forall f,
    (forall r c, 0 <= r < m_pointRowCount p -> 0 <= c < m_pointColumnCount p -> f r c = c) ->
    patch_rel f p1 p1).
  { intros f Hf. unfold patch_rel. repeat split; try reflexivity;
      intros r c Hr' Hc'; now rewrite Hf. }
  destruct (is_orientation_preserving_transform m) eqn:Hop; cbn [negb].
  - exists p1. split; [reflexivity |].
    apply (Hfinal p1 (fun _ c => c)); [now apply Hrefl |]. intros r c _ Hc'. split; [lia | reflexivity].
  - pose proof (Z.div_mod (m_pointColumnCount p) 2 ltac:(lia)) as Hdm. rewrite Hco in Hdm.
    destruct (for_each_index_inv (PatchTransform.mirrorColumn)
                (fun k s => patch_rel (mirrored (m_pointColumnCount p) k 0) p1 s)
                (m_pointColumnCount p1 / 2) p1) as (p' & E & H').
    { cbn. lia. }
    { apply Hrefl. intros r c Hr' Hc'. unfold mirrored. case_decide; lia. }
    { intros k s Hk Hs. cbn [p1 m_pointColumnCount] in Hk.
      apply (mirrorColumn_rel p1 s k Hv1 Hs); cbn; lia. }
    exists p'. split; [exact E |].
    apply (Hfinal p' _ H'). intros r c Hr' Hc'. cbn [p1 m_pointColumnCount].
    unfold mirrored. case_decide; lia.
Qed.

End TransformFacts.

Lemma transform_mirrors_columns_witness :
  exists p', PatchTransform.transform (fun x : Z => x) [] (fun b v => v :: b) bounds_list
               (fun (m : bool) x => x + 100) (fun (m : bool) (n : Z) => n)
               (fun n => n =? 0) (fun m : bool => m) false patch_3x3 = Some p'
    /\ controlPoint p' 0 0 = Some 103.
Proof.
  destruct (transform_mirrors_columns (fun x : Z => x) [] (fun b v => v :: b) bounds_list
              (fun (m : bool) x => x + 100) (fun (m : bool) (n : Z) => n)
              (fun n => n =? 0) (fun m : bool => m) false patch_3x3 valid_patch_3x3)
    as (p' & H1 & _ & _ & _ & _ & _ & H2).
  exists p'. split; [exact H1 |].
  exact (proj1 (H2 0 0 ltac:(cbn; lia) ltac:(cbn; lia))).
Defined.

End PatchTransformFacts.
